(** * Gajni Memory: a shallow embedding of the Memory Board component

    The repository holds two copies of the component [App].  Their handlers
    and storage effects are the same; one copy also keeps an [audioLevel] and
    renders the two empty-state messages.  The embedding follows that copy and
    records the list rendering of [src/App.jsx] next to it
    ([memory_list_plain]).

    - ECMAScript strings are sequences of UTF-16 code units ([JS.jsstring]).
    - The platform builtins the component calls ([trim], [startsWith],
      [includes], [JSON.stringify], [JSON.parse]) are written out from
      ECMA-262; [toLowerCase], whose Unicode tables are not reproduced, is a
      section variable.
    - A handler is the list of calls it performs ([Call]): state setters,
      device calls, notices and log lines.  [reduce] applies the setters to
      the hook state, [step] runs a handler and the effects that the
      following render triggers.
    - Everything the environment decides (clock readings, transcripts, the
      outcome of a storage write) is an argument. *)

From Stdlib Require Import List ZArith NArith Bool Lia String Ascii QArith Permutation.
From Stdlib Require DecimalFacts DecimalN.
From Stdlib Require Import Sorted.
Import ListNotations.

Set Implicit Arguments.
Set Warnings "-register-all".

(** ** Platform strings *)

Module JS.

Definition jsstring := list N.

(** A source literal, one code unit per character. *)
Definition lit (s : string) : jsstring :=
  map N_of_ascii (list_ascii_of_string s).

Definition str_eqb (a b : jsstring) : bool :=
  if list_eq_dec N.eq_dec a b then true else false.

(** [WhiteSpace] and [LineTerminator] of ECMA-262, the code units that
    [String.prototype.trim] strips: TAB, LF, VT, FF, CR, SP, NBSP, the
    other space separators and ZWNBSP. *)
Definition isWhiteSpace (u : N) : bool :=
  ((u =? 0x09) || (u =? 0x0A) || (u =? 0x0B) || (u =? 0x0C) || (u =? 0x0D)
   || (u =? 0x20) || (u =? 0xA0) || (u =? 0x1680)
   || ((0x2000 <=? u) && (u <=? 0x200A))
   || (u =? 0x2028) || (u =? 0x2029) || (u =? 0x202F) || (u =? 0x205F)
   || (u =? 0x3000) || (u =? 0xFEFF))%N.

Fixpoint trimStart (s : jsstring) : jsstring :=
  match s with
  | [] => []
  | u :: s' => if isWhiteSpace u then trimStart s' else s
  end.

Definition trimEnd (s : jsstring) : jsstring := rev (trimStart (rev s)).

Definition trim (s : jsstring) : jsstring := trimEnd (trimStart s).

(** [s.startsWith(p)] *)
Fixpoint startsWith (s p : jsstring) : bool :=
  match p, s with
  | [], _ => true
  | _ :: _, [] => false
  | b :: p', a :: s' => (a =? b)%N && startsWith s' p'
  end.

(** [s.includes(sub)]: [sub] occurs at some position of [s]. *)
Fixpoint includes (s sub : jsstring) : bool :=
  startsWith s sub ||
  match s with
  | [] => false
  | _ :: s' => includes s' sub
  end.

(** [toLowerCase] on Basic Latin: A-Z go to a-z, every other unit stays. *)
Definition lowerBasicLatin (u : N) : N :=
  if ((0x41 <=? u) && (u <=? 0x5A))%N then (u + 0x20)%N else u.

Definition toLowerCase_basic (s : jsstring) : jsstring := map lowerBasicLatin s.

Definition isBasicLatin (s : jsstring) : Prop := Forall (fun u => (u < 0x80)%N) s.

End JS.

Import JS.

(** ** JSON text (ECMA-262, 25.5: [JSON.parse] and [JSON.stringify]) *)

Module JSON.

(** A parsed JSON value.  [Number m e] is the literal's exact decimal value
    [m * 10^e]; the rounding of non-integral or very large literals to a
    double is not represented.  [Object] keeps the members in source order,
    a later member of the same name overriding an earlier one. *)
Inductive value : Type :=
| Null
| Bool (b : bool)
| Number (m e : Z)
| Str (s : jsstring)
| Array (l : list value)
| Object (members : list (jsstring * value)).

Inductive result (A : Type) : Type :=
| Ok (a : A)
| SyntaxError
| OutOfFuel.
Arguments SyntaxError {A}.
Arguments OutOfFuel {A}.

(** *** Lexical helpers *)

Definition isJSONWhiteSpace (u : N) : bool :=
  ((u =? 0x09) || (u =? 0x0A) || (u =? 0x0D) || (u =? 0x20))%N.

Fixpoint skip_ws (s : jsstring) : jsstring :=
  match s with
  | [] => []
  | u :: s' => if isJSONWhiteSpace u then skip_ws s' else s
  end.

Definition isDigit (u : N) : bool := ((0x30 <=? u) && (u <=? 0x39))%N.

Definition hexval (u : N) : option N :=
  if isDigit u then Some (u - 0x30)%N
  else if ((0x61 <=? u) && (u <=? 0x66))%N then Some (u - 0x57)%N
  else if ((0x41 <=? u) && (u <=? 0x46))%N then Some (u - 0x37)%N
  else None.

(** The single-character escapes: quote, backslash, slash, b f n r t. *)
Definition unescape (c : N) : option N :=
  if (c =? 0x22)%N then Some 0x22%N
  else if (c =? 0x5C)%N then Some 0x5C%N
  else if (c =? 0x2F)%N then Some 0x2F%N
  else if (c =? 0x62)%N then Some 0x08%N
  else if (c =? 0x66)%N then Some 0x0C%N
  else if (c =? 0x6E)%N then Some 0x0A%N
  else if (c =? 0x72)%N then Some 0x0D%N
  else if (c =? 0x74)%N then Some 0x09%N
  else None.

(** The characters of a string literal, read after its opening quote. *)
Fixpoint parse_chars (s : jsstring) : option (jsstring * jsstring) :=
  match s with
  | [] => None
  | u :: s' =>
    if (u =? 0x22)%N then Some ([], s')
    else if (u =? 0x5C)%N then
      match s' with
      | [] => None
      | c :: s'' =>
        if (c =? 0x75)%N then
          match s'' with
          | h1 :: h2 :: h3 :: h4 :: r =>
            match hexval h1, hexval h2, hexval h3, hexval h4 with
            | Some a, Some b, Some c', Some d =>
              match parse_chars r with
              | Some (t, rest) => Some ((((a * 16 + b) * 16 + c') * 16 + d)%N :: t, rest)
              | None => None
              end
            | _, _, _, _ => None
            end
          | _ => None
          end
        else
          match unescape c with
          | Some x =>
            match parse_chars s'' with
            | Some (t, rest) => Some (x :: t, rest)
            | None => None
            end
          | None => None
          end
      end
    else if (u <? 0x20)%N then None
    else
      match parse_chars s' with
      | Some (t, rest) => Some (u :: t, rest)
      | None => None
      end
  end.

(** *** Numbers *)

Definition digit (d : N) : Decimal.uint -> Decimal.uint :=
  match d with
  | 0 => Decimal.D0 | 1 => Decimal.D1 | 2 => Decimal.D2 | 3 => Decimal.D3
  | 4 => Decimal.D4 | 5 => Decimal.D5 | 6 => Decimal.D6 | 7 => Decimal.D7
  | 8 => Decimal.D8 | _ => Decimal.D9
  end%N.

(** The longest run of decimal digits at the head of [s]. *)
Fixpoint take_digits (s : jsstring) : list N * jsstring :=
  match s with
  | [] => ([], [])
  | u :: s' =>
    if isDigit u
    then let (ds, r) := take_digits s' in ((u - 0x30)%N :: ds, r)
    else ([], s)
  end.

Definition uint_of_digits (ds : list N) : Decimal.uint :=
  fold_right digit Decimal.Nil ds.

Definition digits_value (ds : list N) : Z := Z.of_N (N.of_uint (uint_of_digits ds)).

(** Optional fraction: the digits after the point. *)
Definition parse_frac (s : jsstring) : option (list N * jsstring) :=
  match s with
  | u :: r =>
    if (u =? 0x2E)%N then
      match take_digits r with
      | ([], _) => None
      | (fs, r') => Some (fs, r')
      end
    else Some ([], s)
  | [] => Some ([], s)
  end.

Definition parse_exp_digits (neg : bool) (s : jsstring) : option (Z * jsstring) :=
  match take_digits s with
  | ([], _) => None
  | (es, r) => Some (if neg then (- digits_value es)%Z else digits_value es, r)
  end.

(** Optional exponent part. *)
Definition parse_exp (s : jsstring) : option (Z * jsstring) :=
  match s with
  | u :: r =>
    if ((u =? 0x65) || (u =? 0x45))%N then
      match r with
      | c :: r' =>
        if (c =? 0x2B)%N then parse_exp_digits false r'
        else if (c =? 0x2D)%N then parse_exp_digits true r'
        else parse_exp_digits false r
      | [] => None
      end
    else Some (0%Z, s)
  | [] => Some (0%Z, s)
  end.

Definition parse_unsigned (neg : bool) (s : jsstring) : option (value * jsstring) :=
  match take_digits s with
  | ([], _) => None
  | (d :: ds, r) =>
    if (d =? 0)%N && negb (match ds with [] => true | _ => false end) then None
    else
      match parse_frac r with
      | None => None
      | Some (fs, r1) =>
        match parse_exp r1 with
        | None => None
        | Some (x, r2) =>
          let m := digits_value ((d :: ds) ++ fs) in
          Some (Number (if neg then (- m)%Z else m) (x - Z.of_nat (List.length fs))%Z, r2)
        end
      end
  end.

Definition parse_number (s : jsstring) : option (value * jsstring) :=
  match s with
  | u :: r => if (u =? 0x2D)%N then parse_unsigned true r else parse_unsigned false s
  | [] => None
  end.

(** *** Values *)

Definition lift {A} (o : option A) : result A :=
  match o with Some a => Ok a | None => SyntaxError end.

Definition keyword (s : jsstring) (w : string) (v : value) : result (value * jsstring) :=
  if startsWith s (lit w) then Ok (v, skipn (String.length w) s) else SyntaxError.

Fixpoint parse_value (fuel : nat) (s : jsstring) {struct fuel}
  : result (value * jsstring) :=
  match fuel with
  | O => OutOfFuel
  | S fuel' =>
    match s with
    | [] => SyntaxError
    | u :: s' =>
      if (u =? 0x22)%N then
        match parse_chars s' with
        | Some (t, r) => Ok (Str t, r)
        | None => SyntaxError
        end
      else if (u =? 0x5B)%N then
        match skip_ws s' with
        | [] => SyntaxError
        | c :: r =>
          if (c =? 0x5D)%N then Ok (Array [], r)
          else
            match parse_elements fuel' (c :: r) with
            | Ok (vs, r') => Ok (Array vs, r')
            | SyntaxError => SyntaxError
            | OutOfFuel => OutOfFuel
            end
        end
      else if (u =? 0x7B)%N then
        match skip_ws s' with
        | [] => SyntaxError
        | c :: r =>
          if (c =? 0x7D)%N then Ok (Object [], r)
          else
            match parse_members fuel' (c :: r) with
            | Ok (ms, r') => Ok (Object ms, r')
            | SyntaxError => SyntaxError
            | OutOfFuel => OutOfFuel
            end
        end
      else if (u =? 0x74)%N then keyword s "true" (Bool true)
      else if (u =? 0x66)%N then keyword s "false" (Bool false)
      else if (u =? 0x6E)%N then keyword s "null" Null
      else lift (parse_number s)
    end
  end

(** The elements of a non-empty array, up to and including its bracket. *)
with parse_elements (fuel : nat) (s : jsstring) {struct fuel}
  : result (list value * jsstring) :=
  match fuel with
  | O => OutOfFuel
  | S fuel' =>
    match parse_value fuel' s with
    | Ok (v, r) =>
      match skip_ws r with
      | [] => SyntaxError
      | c :: r' =>
        if (c =? 0x2C)%N then
          match parse_elements fuel' (skip_ws r') with
          | Ok (vs, r'') => Ok (v :: vs, r'')
          | SyntaxError => SyntaxError
          | OutOfFuel => OutOfFuel
          end
        else if (c =? 0x5D)%N then Ok ([v], r')
        else SyntaxError
      end
    | SyntaxError => SyntaxError
    | OutOfFuel => OutOfFuel
    end
  end

(** The members of a non-empty object, up to and including its brace. *)
with parse_members (fuel : nat) (s : jsstring) {struct fuel}
  : result (list (jsstring * value) * jsstring) :=
  match fuel with
  | O => OutOfFuel
  | S fuel' =>
    match s with
    | [] => SyntaxError
    | q :: s' =>
      if negb (q =? 0x22)%N then SyntaxError
      else
        match parse_chars s' with
        | None => SyntaxError
        | Some (k, r) =>
          match skip_ws r with
          | [] => SyntaxError
          | c :: r1 =>
            if negb (c =? 0x3A)%N then SyntaxError
            else
              match parse_value fuel' (skip_ws r1) with
              | Ok (v, r2) =>
                match skip_ws r2 with
                | [] => SyntaxError
                | d :: r3 =>
                  if (d =? 0x2C)%N then
                    match parse_members fuel' (skip_ws r3) with
                    | Ok (ms, r4) => Ok ((k, v) :: ms, r4)
                    | SyntaxError => SyntaxError
                    | OutOfFuel => OutOfFuel
                    end
                  else if (d =? 0x7D)%N then Ok ([(k, v)], r3)
                  else SyntaxError
                end
              | SyntaxError => SyntaxError
              | OutOfFuel => OutOfFuel
              end
          end
        end
    end
  end.

(** Fuel that no text exhausts (lemma [parse_text_fuel]). *)
Definition fuel_for (s : jsstring) : nat := 2 * List.length s + 2.

Definition parse_text (s : jsstring) : result value :=
  match parse_value (fuel_for s) (skip_ws s) with
  | Ok (v, r) => match skip_ws r with [] => Ok v | _ :: _ => SyntaxError end
  | SyntaxError => SyntaxError
  | OutOfFuel => OutOfFuel
  end.

(** [JSON.parse(text)] with no reviver: [None] is a thrown [SyntaxError]. *)
Definition parse (s : jsstring) : option value :=
  match parse_text s with
  | Ok v => Some v
  | _ => None
  end.

(** *** [QuoteJSONString] *)

Definition hexdigit (d : N) : N := (if d <? 10 then 0x30 + d else 0x57 + d)%N.

Definition unicode_escape (u : N) : jsstring :=
  [0x5C; 0x75; hexdigit ((u / 4096) mod 16); hexdigit ((u / 256) mod 16);
   hexdigit ((u / 16) mod 16); hexdigit (u mod 16)]%N.

Definition isLeadSurrogate (u : N) : bool := ((0xD800 <=? u) && (u <=? 0xDBFF))%N.
Definition isTrailSurrogate (u : N) : bool := ((0xDC00 <=? u) && (u <=? 0xDFFF))%N.

Fixpoint quote_units (s : jsstring) : jsstring :=
  match s with
  | [] => []
  | u :: s' =>
    if (u =? 0x08)%N then 0x5C%N :: 0x62%N :: quote_units s'
    else if (u =? 0x09)%N then 0x5C%N :: 0x74%N :: quote_units s'
    else if (u =? 0x0A)%N then 0x5C%N :: 0x6E%N :: quote_units s'
    else if (u =? 0x0C)%N then 0x5C%N :: 0x66%N :: quote_units s'
    else if (u =? 0x0D)%N then 0x5C%N :: 0x72%N :: quote_units s'
    else if (u =? 0x22)%N then 0x5C%N :: 0x22%N :: quote_units s'
    else if (u =? 0x5C)%N then 0x5C%N :: 0x5C%N :: quote_units s'
    else if (u <? 0x20)%N then unicode_escape u ++ quote_units s'
    else if isLeadSurrogate u then
      match s' with
      | v :: s'' =>
        if isTrailSurrogate v then u :: v :: quote_units s''
        else unicode_escape u ++ quote_units s'
      | [] => unicode_escape u
      end
    else if isTrailSurrogate u then unicode_escape u ++ quote_units s'
    else u :: quote_units s'
  end.

Definition quote (s : jsstring) : jsstring := 0x22%N :: quote_units s ++ [0x22%N].

(** *** Integer-valued numbers ([Number::toString], below 10^21) *)

Fixpoint units_of_uint (d : Decimal.uint) : jsstring :=
  match d with
  | Decimal.Nil => []
  | Decimal.D0 d' => 0x30%N :: units_of_uint d'
  | Decimal.D1 d' => 0x31%N :: units_of_uint d'
  | Decimal.D2 d' => 0x32%N :: units_of_uint d'
  | Decimal.D3 d' => 0x33%N :: units_of_uint d'
  | Decimal.D4 d' => 0x34%N :: units_of_uint d'
  | Decimal.D5 d' => 0x35%N :: units_of_uint d'
  | Decimal.D6 d' => 0x36%N :: units_of_uint d'
  | Decimal.D7 d' => 0x37%N :: units_of_uint d'
  | Decimal.D8 d' => 0x38%N :: units_of_uint d'
  | Decimal.D9 d' => 0x39%N :: units_of_uint d'
  end.

Definition integer_to_string (z : Z) : jsstring :=
  if (z <? 0)%Z then 0x2D%N :: units_of_uint (N.to_uint (Z.abs_N z))
  else units_of_uint (N.to_uint (Z.abs_N z)).

(** The integer a number literal denotes, when it denotes one.  The integer
    is kept exactly; it is the Number [JSON.parse] returns when it is a safe
    integer (at most 2^53 - 1 in absolute value), which every [Date.now()]
    reading is.  Beyond that [JSON.parse] rounds to a double, which is not
    represented. *)
Definition integer_of_number (m e : Z) : option Z :=
  if (0 <=? e)%Z then Some (m * 10 ^ e)%Z
  else if (m mod 10 ^ (- e) =? 0)%Z then Some (m / 10 ^ (- e))%Z
  else None.

(** Property lookup on a parsed object: the last member of that name. *)
Fixpoint get (k : jsstring) (members : list (jsstring * value)) : option value :=
  match members with
  | [] => None
  | (k', v) :: rest =>
    match get k rest with
    | Some v' => Some v'
    | None => if str_eqb k k' then Some v else None
    end
  end.

End JSON.

(** ** Data model *)

(** A memory record [{ id, text, timestamp }].  [id] is the value of
    [Date.now()] at creation, an integer-valued Number. *)
Record Memory : Type := { id : Z; text : jsstring; timestamp : jsstring }.

(** A [SpeechSynthesisVoice], by the properties the component reads. *)
Record Voice : Type := { voiceURI : jsstring; lang : jsstring }.

(** A [SpeechSynthesisUtterance]; [voice = None] is the platform default. *)
Record Utterance : Type := { utterance_text : jsstring; voice : option Voice }.

(** The [SpeechRecognition] instance built by [useMemo]. *)
Record Recognition : Type :=
  { continuous : bool; interimResults : bool; recognition_lang : jsstring }.

(** The hook state of [App]. *)
Record AppState : Type :=
  { memories : list Memory;
    newMemory : jsstring;
    searchTerm : jsstring;
    isListening : bool;
    language : jsstring;
    voices : list Voice;
    audioLevel : Q }.

(** What a handler or an effect does, call by call. *)
Inductive Call : Type :=
| preventDefault
| alert (msg : jsstring)
| console_error (msg : jsstring)
| console_warn (msg : jsstring)
| setMemories (ms : list Memory)
| setNewMemory (s : jsstring)
| setSearchTerm (s : jsstring)
| setIsListening (b : bool)
| setLanguage (s : jsstring)
| setVoices (vs : list Voice)
| setAudioLevel (q : Q)
| recognition_set_lang (l : jsstring)
| recognition_start
| recognition_stop
| speechSynthesis_cancel
| speechSynthesis_speak (u : Utterance)
| localStorage_setItem (key value : jsstring).

(** [JSON.stringify(memories)]: each record as an object with its three
    properties in the order in which [handleAddMemory] creates them, no gap.
    This is the text for records the component created, or loaded from a text
    it wrote, with ids that are safe integers (written in plain decimal). *)
Definition stringify_memory (m : Memory) : jsstring :=
  lit "{" ++ JSON.quote (lit "id") ++ lit ":" ++ JSON.integer_to_string (id m)
  ++ lit "," ++ JSON.quote (lit "text") ++ lit ":" ++ JSON.quote (text m)
  ++ lit "," ++ JSON.quote (lit "timestamp") ++ lit ":" ++ JSON.quote (timestamp m)
  ++ lit "}".

Fixpoint stringify_elements (ms : list Memory) : jsstring :=
  match ms with
  | [] => []
  | [m] => stringify_memory m
  | m :: ms' => stringify_memory m ++ lit "," ++ stringify_elements ms'
  end.

Definition stringify_memories (ms : list Memory) : jsstring :=
  lit "[" ++ stringify_elements ms ++ lit "]".

(** A parsed value seen as a memory record: an object whose properties are
    exactly [id] (an integer), [text] and [timestamp] (strings). *)
Definition memory_key (k : jsstring) : bool :=
  str_eqb k (lit "id") || str_eqb k (lit "text") || str_eqb k (lit "timestamp").

Definition memory_of_value (v : JSON.value) : option Memory :=
  match v with
  | JSON.Object members =>
    if forallb (fun kv => memory_key (fst kv)) members then
      match JSON.get (lit "id") members,
            JSON.get (lit "text") members,
            JSON.get (lit "timestamp") members with
      | Some (JSON.Number m e), Some (JSON.Str t), Some (JSON.Str ts) =>
        match JSON.integer_of_number m e with
        | Some i => Some {| id := i; text := t; timestamp := ts |}
        | None => None
        end
      | _, _, _ => None
      end
    else None
  | _ => None
  end.

Fixpoint memories_of_values (vs : list JSON.value) : option (list Memory) :=
  match vs with
  | [] => Some []
  | v :: vs' =>
    match memory_of_value v, memories_of_values vs' with
    | Some m, Some ms => Some (m :: ms)
    | _, _ => None
    end
  end.

Definition memories_of_value (v : JSON.value) : option (list Memory) :=
  match v with
  | JSON.Array vs => memories_of_values vs
  | _ => None
  end.

(** ** Environment *)

(** [localStorage.getItem('gajni-memories')]: the access may throw, the item
    may be absent ([null]). *)
Inductive StorageRead : Type :=
| ReadThrows
| ReadValue (item : option jsstring).

(** [localStorage.setItem]: stored, or refused with an exception. *)
Inductive StorageWrite : Type :=
| Stored
| WriteThrows.

(** What the host offers at startup: the [SpeechRecognition] constructor and
    [window.speechSynthesis] with the voices it lists at that moment. *)
Record Platform : Type :=
  { SpeechRecognition : bool;
    speechSynthesis : option (list Voice) }.

(** The component together with what it reaches outside React: the
    recognition instance, whether ['speechSynthesis' in window] holds, and the
    stored item. *)
Record World : Type :=
  { app : AppState;
    recognition : option Recognition;
    synthesis : bool;
    localStorage : option jsstring }.

(** An effect either performs calls or hands [setMemories] a parsed value that
    is not an array of memory records, which the typed state cannot hold. *)
Inductive EffectResult : Type :=
| Calls (cs : list Call)
| Untyped (v : JSON.value).

Inductive Event : Type :=
| ChangeDraft (value : jsstring)
| ChangeSearch (value : jsstring)
| ChangeLanguage (value : jsstring)
| Submit (now : Z) (localeString : jsstring)
| ClickDelete (idToDelete : Z)
| ClickSpeak (textToSpeak : jsstring)
| ClickMic
| RecognitionResult (transcript : jsstring)
| RecognitionError
| RecognitionEnd
| VoicesChanged (availableVoices : list Voice)
| Tick (random : Q).

Inductive Mounted : Type :=
| Running (w : World) (log : list Call)
| EffectThrew
| LeftTypedState (v : JSON.value).

(** ** State setters and the other call targets *)

Definition reduce (st : AppState) (c : Call) : AppState :=
  match c with
  | setMemories ms =>
    {| memories := ms; newMemory := newMemory st; searchTerm := searchTerm st;
       isListening := isListening st; language := language st;
       voices := voices st; audioLevel := audioLevel st |}
  | setNewMemory s =>
    {| memories := memories st; newMemory := s; searchTerm := searchTerm st;
       isListening := isListening st; language := language st;
       voices := voices st; audioLevel := audioLevel st |}
  | setSearchTerm s =>
    {| memories := memories st; newMemory := newMemory st; searchTerm := s;
       isListening := isListening st; language := language st;
       voices := voices st; audioLevel := audioLevel st |}
  | setIsListening b =>
    {| memories := memories st; newMemory := newMemory st; searchTerm := searchTerm st;
       isListening := b; language := language st;
       voices := voices st; audioLevel := audioLevel st |}
  | setLanguage s =>
    {| memories := memories st; newMemory := newMemory st; searchTerm := searchTerm st;
       isListening := isListening st; language := s;
       voices := voices st; audioLevel := audioLevel st |}
  | setVoices vs =>
    {| memories := memories st; newMemory := newMemory st; searchTerm := searchTerm st;
       isListening := isListening st; language := language st;
       voices := vs; audioLevel := audioLevel st |}
  | setAudioLevel q =>
    {| memories := memories st; newMemory := newMemory st; searchTerm := searchTerm st;
       isListening := isListening st; language := language st;
       voices := voices st; audioLevel := q |}
  | _ => st
  end.

(** [recognition.lang = l] on the instance, when there is one. *)
Definition configure (r : option Recognition) (c : Call) : option Recognition :=
  match c, r with
  | recognition_set_lang l, Some d =>
    Some {| continuous := continuous d; interimResults := interimResults d;
            recognition_lang := l |}
  | _, _ => r
  end.

Definition storage_key : jsstring := lit "gajni-memories".

Definition store (item : option jsstring) (c : Call) : option jsstring :=
  match c with
  | localStorage_setItem k v => if str_eqb k storage_key then Some v else item
  | _ => item
  end.

Definition perform (w : World) (cs : list Call) : World :=
  {| app := fold_left reduce cs (app w);
     recognition := fold_left configure cs (recognition w);
     synthesis := synthesis w;
     localStorage := fold_left store cs (localStorage w) |}.

Definition is_setMemories (c : Call) : bool :=
  match c with setMemories _ => true | _ => false end.

Definition is_alert (c : Call) : bool :=
  match c with alert _ => true | _ => false end.


(** A call on the recognition or synthesis device, or on the store. *)
Definition is_device_call (c : Call) : bool :=
  match c with
  | recognition_set_lang _ | recognition_start | recognition_stop
  | speechSynthesis_cancel | speechSynthesis_speak _ => true
  | _ => false
  end.

(** Calls that are neither setters nor writes. *)
Definition inert (c : Call) : bool :=
  match c with
  | preventDefault | alert _ | console_error _ | console_warn _
  | recognition_start | recognition_stop
  | speechSynthesis_cancel | speechSynthesis_speak _ => true
  | _ => false
  end.

(** A string in a condition: empty is falsy. *)
Definition truthy (s : jsstring) : bool :=
  match s with [] => false | _ :: _ => true end.

(** ** The component *)

Definition initialState : AppState :=
  {| memories := []; newMemory := []; searchTerm := []; isListening := false;
     language := lit "en-US"; voices := []; audioLevel := 0 |}.

(** [useMemo]: one instance for the lifetime of the component, if the
    constructor exists. *)
Definition useMemo_recognition (p : Platform) : option Recognition :=
  if SpeechRecognition p
  then Some {| continuous := false; interimResults := false; recognition_lang := [] |}
  else None.

Definition loadVoices (availableVoices : list Voice) : list Call :=
  if (0 <? List.length availableVoices)%nat then [setVoices availableVoices] else [].

Definition onresult (transcript : jsstring) : list Call :=
  [setNewMemory transcript; setIsListening false].

Definition onerror : list Call :=
  [console_error (lit "Speech recognition error"); setIsListening false].

Definition onend : list Call := [setIsListening false].

(** The interval callback, every 200 ms while listening. *)
Definition interval (random : Q) : list Call := [setAudioLevel (random * 10 + 5)].

(** The recognition effect, run at mount and whenever [isListening] changes:
    while listening only the interval is installed. *)
Definition recognitionEffect (r : option Recognition) (st : AppState) : list Call :=
  match r with
  | None => []
  | Some _ => if isListening st then [] else [setAudioLevel 0]
  end.

(** [recognition_start] stands for a [recognition.start()] that returns.  On
    a device that is still started the call throws and the handler stops after
    the language was written; that path is not represented. *)
Definition handleListen (r : option Recognition) (st : AppState) : list Call :=
  match r with
  | None => [alert (lit "Sorry, your browser does not support voice recognition.")]
  | Some _ =>
    recognition_set_lang (language st) ::
    (if isListening st
     then [recognition_stop; setIsListening false]
     else [recognition_start; setIsListening true])
  end.

Definition loadMemoriesEffect (read : StorageRead) : EffectResult :=
  match read with
  | ReadThrows =>
    Calls [console_error (lit "Failed to load memories from local storage")]
  | ReadValue None => Calls []
  | ReadValue (Some savedMemories) =>
    if truthy savedMemories then
      match JSON.parse savedMemories with
      | Some v =>
        match memories_of_value v with
        | Some ms => Calls [setMemories ms]
        | None => Untyped v
        end
      | None =>
        Calls [console_error (lit "Failed to load memories from local storage")]
      end
    else Calls []
  end.

Definition saveMemoriesEffect (o : StorageWrite) (st : AppState) : list Call :=
  match o with
  | Stored => [localStorage_setItem storage_key (stringify_memories (memories st))]
  | WriteThrows =>
    [console_error (lit "Failed to save memories from local storage")]
  end.

Definition handleAddMemory (now : Z) (localeString : jsstring) (st : AppState)
  : list Call :=
  preventDefault ::
  (if str_eqb (trim (newMemory st)) []
   then [alert (lit "Please enter a memory!")]
   else
     let memory := {| id := now; text := newMemory st; timestamp := localeString |} in
     [setMemories (memory :: memories st); setNewMemory []]).

Definition handleDeleteMemory (idToDelete : Z) (st : AppState) : list Call :=
  [setMemories (filter (fun memory => negb (id memory =? idToDelete)%Z) (memories st))].

Definition handleSpeak (in_window : bool) (textToSpeak : jsstring) (st : AppState)
  : list Call :=
  if in_window then
    let selectedVoice := find (fun voice => startsWith (lang voice) (language st)) (voices st) in
    speechSynthesis_cancel ::
    match selectedVoice with
    | Some _ => []
    | None =>
      [console_warn (lit "No voice found for language: " ++ language st
                     ++ lit ". Using default.")]
    end
    ++ [speechSynthesis_speak {| utterance_text := textToSpeak; voice := selectedVoice |}]
  else [alert (lit "Sorry, your browser does not support text-to-speech.")].

(** What the [<ul className="memory-list">] holds. *)
Inductive Node : Type :=
| li (memory : Memory)
| p_no_results (term : jsstring)
| p_empty_state.

Section Component.

(** [String.prototype.toLowerCase] of the host. *)
Variable toLowerCase : jsstring -> jsstring.

Definition filteredMemories (st : AppState) : list Memory :=
  filter (fun memory => includes (toLowerCase (text memory)) (toLowerCase (searchTerm st)))
         (memories st).

(** The list with its empty states: items, or one of the two messages. *)
Definition memory_list (st : AppState) : list Node :=
  if (0 <? List.length (filteredMemories st))%nat
  then map li (filteredMemories st)
  else if truthy (searchTerm st)
       then [p_no_results (searchTerm st)]
       else [p_empty_state].

(** The list as [src/App.jsx] renders it: items only. *)
Definition memory_list_plain (st : AppState) : list Node :=
  map li (filteredMemories st).

End Component.

(** ** Events and renders *)

(** The handler an event runs, on the state of the render that installed it. *)
Definition handle (e : Event) (w : World) : list Call :=
  let st := app w in
  match e with
  | ChangeDraft value => [setNewMemory value]
  | ChangeSearch value => [setSearchTerm value]
  | ChangeLanguage value => [setLanguage value]
  | Submit now localeString => handleAddMemory now localeString st
  | ClickDelete idToDelete => handleDeleteMemory idToDelete st
  | ClickSpeak textToSpeak => handleSpeak (synthesis w) textToSpeak st
  | ClickMic => handleListen (recognition w) st
  | RecognitionResult transcript =>
    match recognition w with Some _ => onresult transcript | None => [] end
  | RecognitionError =>
    match recognition w with Some _ => onerror | None => [] end
  | RecognitionEnd =>
    match recognition w with Some _ => onend | None => [] end
  | VoicesChanged availableVoices =>
    if synthesis w then loadVoices availableVoices else []
  | Tick random =>
    match recognition w with
    | Some _ => if isListening st then interval random else []
    | None => []
    end
  end.

(** The effects of the render that follows the calls [cs]: the recognition
    effect when [isListening] changed, the save effect when [setMemories] was
    called (each call passes a fresh array). *)
Definition effects (o : StorageWrite) (w : World) (cs : list Call) : list Call :=
  let st := fold_left reduce cs (app w) in
  (if Bool.eqb (isListening st) (isListening (app w))
   then []
   else recognitionEffect (recognition w) st)
  ++ (if existsb is_setMemories cs then saveMemoriesEffect o st else []).

Definition step (o : StorageWrite) (e : Event) (w : World) : World * list Call :=
  let cs := handle e w in
  let es := effects o w cs in
  (perform w (cs ++ es), cs ++ es).

Definition stored_item (read : StorageRead) : option jsstring :=
  match read with
  | ReadThrows => None
  | ReadValue item => item
  end.

(** The first render and its effects, in declaration order: voices,
    recognition, load, save; then the save effect of the second render when
    the load seeded the collection. *)
Definition mount (p : Platform) (read : StorageRead) (o1 o2 : StorageWrite) : Mounted :=
  match speechSynthesis p with
  | None => EffectThrew
  | Some availableVoices =>
    let r := useMemo_recognition p in
    match loadMemoriesEffect read with
    | Untyped v => LeftTypedState v
    | Calls load =>
      let first := loadVoices availableVoices ++ recognitionEffect r initialState
                   ++ load ++ saveMemoriesEffect o1 initialState in
      let w1 := perform {| app := initialState; recognition := r; synthesis := true;
                           localStorage := stored_item read |} first in
      let second := if existsb is_setMemories load
                    then saveMemoriesEffect o2 (app w1) else [] in
      Running (perform w1 second) (first ++ second)
    end
  end.

(** The worlds a running component can be in. *)
Inductive Reachable (w0 : World) : World -> Prop :=
| reach_mounted : Reachable w0 w0
| reach_step (w : World) (o : StorageWrite) (e : Event) :
    Reachable w0 w -> Reachable w0 (fst (step o e w)).

(** ** Vocabulary of the properties *)

(** A draft that is empty or made of white space only. *)
Definition blank (s : jsstring) : Prop := Forall (fun u => isWhiteSpace u = true) s.

(** [sub] occurs in [s] as a contiguous run of code units. *)
Definition occurs_in (sub s : jsstring) : Prop :=
  exists pre post, s = pre ++ sub ++ post.

(** [p] is an initial segment of [s]. *)
Definition prefix_of (p s : jsstring) : Prop := exists rest, s = p ++ rest.

(** The filter occurs in the text once both are lower-cased. *)
Definition occurs_ignoring_case (toLowerCase : jsstring -> jsstring)
           (term txt : jsstring) : Prop :=
  occurs_in (toLowerCase term) (toLowerCase txt).

(** One add operation: the draft typed into the form, then the submission,
    with the clock reading, the formatted time and the fate of the write. *)
Record Add : Type :=
  { draft : jsstring; clock : Z; formatted : jsstring; write : StorageWrite }.

Definition created (a : Add) : Memory :=
  {| id := clock a; text := draft a; timestamp := formatted a |}.

Definition add (w : World) (a : Add) : World :=
  fst (step (write a) (Submit (clock a) (formatted a))
            (fst (step (write a) (ChangeDraft (draft a)) w))).

Definition adds (w : World) (l : list Add) : World := fold_left add l w.

(** The collection after a click on a delete button. *)
Definition deleted (o : StorageWrite) (idToDelete : Z) (w : World) : list Memory :=
  memories (app (fst (step o (ClickDelete idToDelete) w))).

(** A host with neither recognition nor voices, and an empty store. *)
Definition bare_platform : Platform :=
  {| SpeechRecognition := false; speechSynthesis := Some [] |}.

Definition fresh_world : World :=
  {| app := initialState; recognition := None; synthesis := true;
     localStorage := Some (lit "[]") |}.

(** Sample operations: two submissions within one millisecond, and a later
    one. *)
Definition add_milk : Add :=
  {| draft := lit "Buy Milk"; clock := 1730000000000;
     formatted := lit "11/2/2026, 7:09:00 AM"; write := Stored |}.

Definition add_eggs : Add :=
  {| draft := lit "Buy eggs"; clock := 1730000000000;
     formatted := lit "11/2/2026, 7:09:00 AM"; write := Stored |}.

Definition add_call : Add :=
  {| draft := lit "Call home"; clock := 1730000004000;
     formatted := lit "11/2/2026, 7:09:04 AM"; write := Stored |}.

Definition world_two_notes : World := adds fresh_world [add_milk; add_call].

Definition world_same_id : World := adds fresh_world [add_milk; add_eggs].

Definition world_blank_draft : World :=
  fst (step Stored (ChangeDraft (lit "   ")) (adds fresh_world [add_milk])).

Definition is_setIsListening (c : Call) : bool :=
  match c with setIsListening _ => true | _ => false end.

(** The state with two notes and [term] typed into the search box. *)
Definition searching (term : jsstring) : AppState :=
  app (fst (step Stored (ChangeSearch term) world_two_notes)).

(** No memory yet, and a filter typed in. *)
Definition filter_before_first_note : AppState :=
  app (fst (step Stored (ChangeSearch (lit "milk")) fresh_world)).

Definition voice_en_GB : Voice := {| voiceURI := lit "Daniel"; lang := lit "en-GB" |}.
Definition voice_en_US : Voice := {| voiceURI := lit "Samantha"; lang := lit "en-US" |}.
Definition voice_en_US_2 : Voice := {| voiceURI := lit "Alex"; lang := lit "en-US" |}.

Definition world_with_voices : World :=
  fst (step Stored (VoicesChanged [voice_en_GB; voice_en_US; voice_en_US_2])
            world_two_notes).

(** The digits of a decimal numeral, most significant first. *)
Fixpoint digit_values (d : Decimal.uint) : list N :=
  match d with
  | Decimal.Nil => []
  | Decimal.D0 d' => 0%N :: digit_values d'
  | Decimal.D1 d' => 1%N :: digit_values d'
  | Decimal.D2 d' => 2%N :: digit_values d'
  | Decimal.D3 d' => 3%N :: digit_values d'
  | Decimal.D4 d' => 4%N :: digit_values d'
  | Decimal.D5 d' => 5%N :: digit_values d'
  | Decimal.D6 d' => 6%N :: digit_values d'
  | Decimal.D7 d' => 7%N :: digit_values d'
  | Decimal.D8 d' => 8%N :: digit_values d'
  | Decimal.D9 d' => 9%N :: digit_values d'
  end.

(** The value [JSON.parse] builds for what [JSON.stringify] wrote. *)
Definition value_of_memory (m : Memory) : JSON.value :=
  JSON.Object [(lit "id", JSON.Number (id m) 0);
               (lit "text", JSON.Str (text m));
               (lit "timestamp", JSON.Str (timestamp m))].

Definition value_of_memories (ms : list Memory) : JSON.value :=
  JSON.Array (map value_of_memory ms).

Definition load_failure : list Call :=
  [console_error (lit "Failed to load memories from local storage")].

Definition corrupt_item : jsstring := lit "[{id:1730000000000}]".

(** The first draft typed into a freshly mounted component. *)
Definition world_draft_typed : World :=
  fst (step Stored (ChangeDraft (lit "Buy eggs")) fresh_world).

(** ** Vocabulary of the further properties *)

(** [Number.isSafeInteger]: the integers every Number holds exactly. *)
Definition safe_integer (z : Z) : Prop := (Z.abs z <= 9007199254740991)%Z.

(** Every record carries an id that a Number holds exactly. *)
Definition safe_ids (ms : list Memory) : Prop :=
  Forall (fun m => safe_integer (id m)) ms.

(** What a startup did, when it left a running component. *)
Definition startup_log (m : Mounted) : list Call :=
  match m with
  | Running _ log => log
  | _ => []
  end.

(** [memory.text] on an element of a parsed value, when it is a string on
    which [toLowerCase] can be called: [None] is the [TypeError] that the
    property access or the call throws otherwise. *)
Definition text_of_value (v : JSON.value) : option jsstring :=
  match v with
  | JSON.Object members =>
    match JSON.get (lit "text") members with
    | Some (JSON.Str t) => Some t
    | _ => None
    end
  | _ => None
  end.

Fixpoint filter_values (toLowerCase : jsstring -> jsstring) (term : jsstring)
         (vs : list JSON.value) : option (list JSON.value) :=
  match vs with
  | [] => Some []
  | v :: vs' =>
    match text_of_value v with
    | None => None
    | Some t =>
      match filter_values toLowerCase term vs' with
      | None => None
      | Some kept =>
        Some (if includes (toLowerCase t) (toLowerCase term) then v :: kept else kept)
      end
    end
  end.

(** [memories.filter(memory => memory.text.toLowerCase().includes(...))] of
    the render, when [memories] is a parsed value that [setMemories] was
    handed as it is: only an array has [filter]; [None] is the [TypeError]
    thrown while rendering. *)
Definition filteredMemories_of_value (toLowerCase : jsstring -> jsstring)
           (term : jsstring) (v : JSON.value) : option (list JSON.value) :=
  match v with
  | JSON.Array vs => filter_values toLowerCase term vs
  | _ => None
  end.

Definition is_setItem (c : Call) : bool :=
  match c with localStorage_setItem _ _ => true | _ => false end.

Definition is_setVoices (c : Call) : bool :=
  match c with setVoices _ => true | _ => false end.

Definition is_setAudioLevel (c : Call) : bool :=
  match c with setAudioLevel _ => true | _ => false end.

(** Events one after the other, each with the fate of the write it may
    trigger. *)
Definition run (w : World) (es : list (StorageWrite * Event)) : World :=
  fold_left (fun w oe => fst (step (fst oe) (snd oe) w)) es w.

(** The same events when the store accepts every write. *)
Definition accepted (es : list Event) : list (StorageWrite * Event) :=
  map (pair Stored) es.

(** The world a mount leaves, when it leaves one. *)
Definition started (m : Mounted) : World :=
  match m with
  | Running w _ => w
  | _ => fresh_world
  end.

(** A host with recognition and two voices. *)
Definition full_platform : Platform :=
  {| SpeechRecognition := true; speechSynthesis := Some [voice_en_GB; voice_en_US] |}.

Definition world_with_device : World :=
  started (mount full_platform (ReadValue None) Stored Stored).

(** The text the two notes were saved as, and the restart on it. *)
Definition two_notes_saved : StorageRead :=
  ReadValue (Some (stringify_memories (memories (app world_two_notes)))).

Definition world_restarted : World :=
  started (mount full_platform two_notes_saved Stored Stored).

Definition world_listening : World :=
  fst (step Stored ClickMic
            (fst (step Stored (ChangeLanguage (lit "ur-PK")) world_with_device))).

(** A call that, if it sets the audio level, sets it to zero. *)
Definition sets_level_zero (c : Call) : Prop :=
  match c with
  | setAudioLevel q => q = 0%Q
  | _ => True
  end.

(** * Properties *)

(** ** Strings *)

Lemma str_eqb_true (a b : jsstring) : str_eqb a b = true <-> a = b.
Proof.
  unfold str_eqb. destruct (list_eq_dec N.eq_dec a b); split; congruence.
Qed.

Lemma str_eqb_nil (s : jsstring) : str_eqb s [] = true <-> s = [].
Proof. apply str_eqb_true. Qed.

Lemma trimStart_blank (s : jsstring) : trimStart s = [] <-> blank s.
Proof.
  unfold blank. induction s as [|u s IH]; simpl.
  - split; auto.
  - destruct (isWhiteSpace u) eqn:E.
    + rewrite IH. split; intro H.
      * constructor; assumption.
      * inversion H; assumption.
    + split; intro H.
      * discriminate.
      * inversion H; congruence.
Qed.

Lemma blank_rev (s : jsstring) : blank s <-> blank (rev s).
Proof.
  unfold blank. rewrite !Forall_forall. split; intros H u Hu; apply H.
  - now apply in_rev.
  - now apply in_rev in Hu.
Qed.

Lemma trimStart_suffix (s : jsstring) : exists pre, s = pre ++ trimStart s /\ blank pre.
Proof.
  induction s as [|u s [pre [E B]]]; simpl.
  - exists []. split; [reflexivity | constructor].
  - destruct (isWhiteSpace u) eqn:W.
    + exists (u :: pre). split.
      * simpl. congruence.
      * constructor; assumption.
    + exists []. split; [reflexivity | constructor].
Qed.

Lemma blank_app (a b : jsstring) : blank (a ++ b) <-> blank a /\ blank b.
Proof. unfold blank. apply Forall_app. Qed.

(** [trim] leaves nothing exactly of the blank strings. *)
Lemma trim_blank (s : jsstring) : trim s = [] <-> blank s.
Proof.
  unfold trim, trimEnd.
  destruct (trimStart_suffix s) as [pre [E B]].
  split; intro H.
  - assert (R : trimStart (rev (trimStart s)) = []).
    { apply (f_equal (@rev N)) in H. rewrite rev_involutive in H. exact H. }
    apply trimStart_blank, blank_rev in R.
    rewrite E. apply blank_app. split; assumption.
  - assert (T : trimStart s = []) by now apply trimStart_blank.
    rewrite T. reflexivity.
Qed.

Lemma startsWith_prefix (s p : jsstring) : startsWith s p = true <-> prefix_of p s.
Proof.
  unfold prefix_of. revert s. induction p as [|b p IH]; intros s; simpl.
  - split; [intros _; now exists s | intros _; now destruct s].
  - destruct s as [|a s]; simpl.
    + split; [discriminate | intros [rest H]; discriminate].
    + rewrite andb_true_iff, N.eqb_eq, IH. split.
      * intros [-> [rest ->]]. now exists rest.
      * intros [rest H]. injection H as -> ->. split; [reflexivity | now exists rest].
Qed.

Lemma includes_occurs (s sub : jsstring) : includes s sub = true <-> occurs_in sub s.
Proof.
  unfold occurs_in. induction s as [|a s IH]; cbn [includes].
  - rewrite orb_false_r, startsWith_prefix. unfold prefix_of. split.
    + intros [rest H]. exists [], rest. exact H.
    + intros [pre [post H]]. destruct pre; [now exists post | discriminate].
  - rewrite orb_true_iff, startsWith_prefix, IH. unfold prefix_of. split.
    + intros [[rest H] | [pre [post H]]].
      * exists [], rest. exact H.
      * exists (a :: pre), post. simpl. now rewrite H.
    + intros [pre [post H]]. destruct pre as [|x pre]; simpl in H.
      * left. now exists post.
      * right. injection H as _ H. now exists pre, post.
Qed.

Lemma includes_empty (s : jsstring) : includes s [] = true.
Proof. apply includes_occurs. now exists [], s. Qed.

(** ** Handlers on the world *)

Lemma world_eta (w : World) :
  {| app := app w; recognition := recognition w; synthesis := synthesis w;
     localStorage := localStorage w |} = w.
Proof. destruct w; reflexivity. Qed.

Lemma state_eta (st : AppState) :
  {| memories := memories st; newMemory := newMemory st; searchTerm := searchTerm st;
     isListening := isListening st; language := language st; voices := voices st;
     audioLevel := audioLevel st |} = st.
Proof. destruct st; reflexivity. Qed.

Lemma fold_inert (A : Type) (f : A -> Call -> A) (cs : list Call) :
  (forall a c, inert c = true -> f a c = a) ->
  forallb inert cs = true -> forall a, fold_left f cs a = a.
Proof.
  intros Hf. induction cs as [|c cs IH]; intros H a; simpl in *; [reflexivity|].
  apply andb_true_iff in H as [Hc Hcs]. rewrite (Hf a c Hc). now apply IH.
Qed.

(** Inert calls leave the world as it is. *)
Lemma perform_inert (w : World) (cs : list Call) :
  forallb inert cs = true -> perform w cs = w.
Proof.
  intro H. unfold perform.
  rewrite !fold_inert; try assumption.
  - apply world_eta.
  - intros a c Hc. destruct c; try discriminate; reflexivity.
  - intros a c Hc. destruct c; try discriminate; reflexivity.
  - intros a c Hc. destruct c; try discriminate; reflexivity.
Qed.

Lemma handleAddMemory_blank (now : Z) (localeString : jsstring) (st : AppState) :
  blank (newMemory st) ->
  handleAddMemory now localeString st = [preventDefault; alert (lit "Please enter a memory!")].
Proof.
  intro B. unfold handleAddMemory.
  apply trim_blank in B. rewrite B. reflexivity.
Qed.

Lemma handleAddMemory_filled (now : Z) (localeString : jsstring) (st : AppState) :
  trim (newMemory st) <> [] ->
  handleAddMemory now localeString st =
  [preventDefault;
   setMemories ({| id := now; text := newMemory st; timestamp := localeString |}
                  :: memories st);
   setNewMemory []].
Proof.
  intro B. unfold handleAddMemory.
  destruct (str_eqb (trim (newMemory st)) []) eqn:E; [|reflexivity].
  apply str_eqb_nil in E. contradiction.
Qed.

Lemma saveMemoriesEffect_keeps (o : StorageWrite) (st st' : AppState) :
  fold_left reduce (saveMemoriesEffect o st') st = st.
Proof. destruct o; reflexivity. Qed.

Lemma step_ChangeDraft (o : StorageWrite) (value : jsstring) (w : World) :
  fst (step o (ChangeDraft value) w) =
  {| app := reduce (app w) (setNewMemory value); recognition := recognition w;
     synthesis := synthesis w; localStorage := localStorage w |}.
Proof.
  unfold step, effects. cbn [handle fold_left reduce isListening existsb is_setMemories orb].
  rewrite Bool.eqb_reflx. reflexivity.
Qed.

(** A submission with a filled draft prepends the new record, clears the
    draft and touches nothing else of the hook state. *)
Lemma step_Submit_filled (o : StorageWrite) (now : Z) (ls : jsstring) (w : World) :
  trim (newMemory (app w)) <> [] ->
  app (fst (step o (Submit now ls) w)) =
  reduce (reduce (app w)
                 (setMemories ({| id := now; text := newMemory (app w); timestamp := ls |}
                                 :: memories (app w))))
         (setNewMemory []).
Proof.
  intro F. unfold step, effects. cbn [handle].
  rewrite (handleAddMemory_filled now ls _ F).
  cbn [fst perform app]. rewrite fold_left_app.
  cbn [fold_left reduce isListening existsb is_setMemories orb app].
  rewrite Bool.eqb_reflx. cbn [List.app]. apply saveMemoriesEffect_keeps.
Qed.

Lemma step_ClickDelete (o : StorageWrite) (i : Z) (w : World) :
  deleted o i w = filter (fun memory => negb (id memory =? i)%Z) (memories (app w)).
Proof.
  unfold deleted, step, effects. cbn [handle]. unfold handleDeleteMemory.
  cbn [fst perform app]. rewrite fold_left_app.
  cbn [fold_left reduce isListening existsb is_setMemories orb app].
  rewrite Bool.eqb_reflx. cbn [List.app]. rewrite saveMemoriesEffect_keeps. reflexivity.
Qed.

Lemma add_memories (w : World) (a : Add) :
  trim (draft a) <> [] ->
  memories (app (add w a)) = created a :: memories (app w).
Proof.
  intro F. unfold add. rewrite step_ChangeDraft, step_Submit_filled; [reflexivity | exact F].
Qed.

Lemma adds_memories (l : list Add) (w : World) :
  Forall (fun a => trim (draft a) <> []) l ->
  memories (app (adds w l)) = rev (map created l) ++ memories (app w).
Proof.
  unfold adds. revert w. induction l as [|a l IH]; intros w F; cbn [fold_left map rev].
  - reflexivity.
  - inversion F as [|? ? Fa Fl]; subst.
    rewrite (IH _ Fl), (add_memories w a Fa), <- app_assoc. reflexivity.
Qed.

Lemma NoDup_rev_app (A : Type) (l k : list A) : NoDup (rev l ++ k) <-> NoDup (l ++ k).
Proof.
  assert (P : Permutation (l ++ k) (rev l ++ k))
    by apply Permutation_app_tail, Permutation_rev.
  split; apply Permutation_NoDup; [symmetry|]; exact P.
Qed.

Lemma filter_all (A : Type) (f : A -> bool) (l : list A) :
  (forall x, In x l -> f x = true) -> filter f l = l.
Proof.
  induction l as [|x l IH]; intro H; simpl; [reflexivity|].
  rewrite (H x (or_introl eq_refl)), IH; [reflexivity|].
  intros y Hy. apply H. now right.
Qed.

Lemma filter_other_ids (i : Z) (l : list Memory) :
  ~ In i (map id l) -> filter (fun memory => negb (id memory =? i)%Z) l = l.
Proof.
  intro H. apply filter_all. intros x Hx.
  apply negb_true_iff, Z.eqb_neq. intro E. apply H. rewrite <- E. now apply in_map.
Qed.

(** ** The collection *)

(** C1, as amended: after any sequence of add operations whose drafts trim to
    something, the collection is the created records, newest first, in front
    of what was there before; and the ids in it are pairwise distinct exactly
    when the ids that were already present are pairwise distinct, the clock
    readings of the adds are pairwise distinct, and no clock reading equals an
    id that was already present. *)
Theorem adds_newest_first (w : World) (l : list Add) :
  Forall (fun a => trim (draft a) <> []) l ->
  memories (app (adds w l)) = rev (map created l) ++ memories (app w)
  /\ (NoDup (map id (memories (app (adds w l))))
      <-> NoDup (map clock l ++ map id (memories (app w)))).
Proof.
  intro F. pose proof (adds_memories w F) as E. split; [exact E|].
  rewrite E, map_app, map_rev, map_map. cbn [created id].
  apply NoDup_rev_app.
Qed.

Lemma adds_newest_first_witness :
  Forall (fun a => trim (draft a) <> []) [add_milk; add_call]
  /\ memories (app (adds fresh_world [add_milk; add_call]))
     = [created add_call; created add_milk]
  /\ NoDup (map id (memories (app (adds fresh_world [add_milk; add_call])))).
Proof.
  assert (F : Forall (fun a => trim (draft a) <> []) [add_milk; add_call])
    by (repeat constructor; vm_compute; discriminate).
  destruct (adds_newest_first fresh_world F) as [E U].
  split; [exact F|]. split; [exact E|].
  apply U. vm_compute. repeat constructor; simpl; intuition discriminate.
Defined.

(** C1, as stated, fails: two submissions that read the same millisecond from
    the clock leave two records with one id. *)
Lemma same_millisecond_same_id :
  Forall (fun a => trim (draft a) <> []) [add_milk; add_eggs]
  /\ ~ NoDup (map id (memories (app world_same_id))).
Proof.
  split.
  - repeat constructor; vm_compute; discriminate.
  - vm_compute. intro H. inversion H as [|? ? N _]; subst. apply N. now left.
Qed.

(** C2: with a blank draft the submission changes nothing in the world: not
    the collection, not the rest of the hook state, not the device, not the
    store; the only calls are [preventDefault] and the notice. *)
Theorem blank_submit_rejected (o : StorageWrite) (now : Z) (localeString : jsstring)
        (w : World) :
  blank (newMemory (app w)) ->
  step o (Submit now localeString) w
  = (w, [preventDefault; alert (lit "Please enter a memory!")]).
Proof.
  intro B. unfold step, effects. cbn [handle].
  rewrite (handleAddMemory_blank now localeString _ B).
  cbn [fold_left reduce existsb is_setMemories orb].
  rewrite Bool.eqb_reflx. cbn [List.app].
  rewrite perform_inert by reflexivity. reflexivity.
Qed.

Lemma blank_submit_rejected_witness :
  blank (newMemory (app world_blank_draft))
  /\ step Stored (Submit 1730000009000 (lit "11/2/2026, 7:09:09 AM")) world_blank_draft
     = (world_blank_draft, [preventDefault; alert (lit "Please enter a memory!")]).
Proof.
  assert (B : blank (newMemory (app world_blank_draft)))
    by (vm_compute; repeat constructor).
  split; [exact B|].
  exact (blank_submit_rejected Stored 1730000009000 (lit "11/2/2026, 7:09:09 AM")
                               world_blank_draft B).
Defined.

(** C3, as amended: in a collection whose ids are pairwise distinct, deleting
    by the id of a record that is present removes that record and keeps the
    others in their order. *)
Theorem delete_removes_the_record (o : StorageWrite) (w : World) (m : Memory) :
  NoDup (map id (memories (app w))) ->
  In m (memories (app w)) ->
  exists before after,
    memories (app w) = before ++ m :: after
    /\ deleted o (id m) w = before ++ after.
Proof.
  intros U H. rewrite step_ClickDelete.
  destruct (in_split _ _ H) as [before [after E]].
  exists before, after. split; [exact E|].
  rewrite E in U |- *. rewrite map_app in U. cbn [map] in U.
  apply NoDup_remove_2 in U.
  rewrite filter_app. cbn [filter]. rewrite Z.eqb_refl. cbn [negb].
  rewrite !filter_other_ids; [reflexivity | |];
    intro I; apply U, in_or_app; [now right | now left].
Qed.

Lemma delete_removes_the_record_witness :
  NoDup (map id (memories (app world_two_notes)))
  /\ In (created add_milk) (memories (app world_two_notes))
  /\ exists before after,
      memories (app world_two_notes) = before ++ created add_milk :: after
      /\ deleted Stored (id (created add_milk)) world_two_notes = before ++ after.
Proof.
  assert (U : NoDup (map id (memories (app world_two_notes))))
    by (vm_compute; repeat constructor; simpl; intuition discriminate).
  assert (H : In (created add_milk) (memories (app world_two_notes)))
    by (vm_compute; auto).
  split; [exact U|]. split; [exact H|].
  exact (delete_removes_the_record Stored world_two_notes (created add_milk) U H).
Defined.

(** C3, as stated, fails: when two records carry the same id, deleting by it
    removes both. *)
Lemma delete_removes_both :
  In (created add_eggs) (memories (app world_same_id))
  /\ deleted Stored (id (created add_eggs)) world_same_id = []
  /\ ~ exists before after,
        memories (app world_same_id) = before ++ created add_eggs :: after
        /\ deleted Stored (id (created add_eggs)) world_same_id = before ++ after.
Proof.
  assert (D : deleted Stored (id (created add_eggs)) world_same_id = [])
    by (vm_compute; reflexivity).
  split; [vm_compute; auto|]. split; [exact D|].
  intros [before [after [E R]]]. rewrite D in R.
  symmetry in R. apply app_eq_nil in R as [-> ->].
  vm_compute in E. discriminate.
Qed.

(** C10: deleting by an id that no record carries leaves the collection as it
    was. *)
Theorem delete_unknown_id (o : StorageWrite) (w : World) (idToDelete : Z) :
  ~ In idToDelete (map id (memories (app w))) ->
  deleted o idToDelete w = memories (app w).
Proof.
  intro H. rewrite step_ClickDelete. now apply filter_other_ids.
Qed.

Lemma delete_unknown_id_witness :
  ~ In 42%Z (map id (memories (app world_two_notes)))
  /\ deleted Stored 42 world_two_notes = memories (app world_two_notes).
Proof.
  assert (H : ~ In 42%Z (map id (memories (app world_two_notes))))
    by (vm_compute; intuition discriminate).
  split; [exact H|].
  exact (delete_unknown_id Stored world_two_notes 42 H).
Defined.

(** ** The filtered list and the empty states *)

Lemma toLowerCase_basic_on_basic_latin (s : jsstring) :
  isBasicLatin s -> toLowerCase_basic s = toLowerCase_basic s.
Proof. reflexivity. Qed.

Lemma isBasicLatin_lit (s : string) :
  forallb (fun u => (u <? 0x80)%N) (lit s) = true -> isBasicLatin (lit s).
Proof.
  unfold isBasicLatin. rewrite forallb_forall, Forall_forall.
  intros H u Hu. apply N.ltb_lt. now apply H.
Qed.

Section Filter.

Variable toLowerCase : jsstring -> jsstring.

(** On Basic Latin text the host lower-cases A-Z unit by unit. *)
Hypothesis toLowerCase_basic_latin :
  forall s, isBasicLatin s -> toLowerCase s = toLowerCase_basic s.

Lemma toLowerCase_empty : toLowerCase [] = [].
Proof. apply (toLowerCase_basic_latin (s := [])). constructor. Qed.

Lemma filteredMemories_In (st : AppState) (m : Memory) :
  In m (filteredMemories toLowerCase st)
  <-> In m (memories st) /\ occurs_ignoring_case toLowerCase (searchTerm st) (text m).
Proof.
  unfold filteredMemories, occurs_ignoring_case.
  rewrite filter_In, includes_occurs. reflexivity.
Qed.

Lemma filteredMemories_no_filter (st : AppState) :
  searchTerm st = [] -> filteredMemories toLowerCase st = memories st.
Proof.
  intro E. unfold filteredMemories. rewrite E, toLowerCase_empty.
  apply filter_all. intros. apply includes_empty.
Qed.

Lemma memory_list_cases (st : AppState) :
  (filteredMemories toLowerCase st <> []
   /\ memory_list toLowerCase st = map li (filteredMemories toLowerCase st))
  \/ (filteredMemories toLowerCase st = [] /\ searchTerm st <> []
      /\ memory_list toLowerCase st = [p_no_results (searchTerm st)])
  \/ (filteredMemories toLowerCase st = [] /\ searchTerm st = []
      /\ memory_list toLowerCase st = [p_empty_state]).
Proof.
  unfold memory_list.
  destruct (filteredMemories toLowerCase st) as [|m l] eqn:F; cbn [List.length Nat.ltb Nat.leb].
  - right. destruct (searchTerm st) as [|u t] eqn:T; cbn [truthy].
    + right. auto.
    + left. repeat split; congruence.
  - left. split; [discriminate | reflexivity].
Qed.

Lemma memory_list_li (st : AppState) (m : Memory) :
  In (li m) (memory_list toLowerCase st) <-> In m (filteredMemories toLowerCase st).
Proof.
  destruct (memory_list_cases st) as [[_ E] | [[F [_ E]] | [F [_ E]]]]; rewrite E.
  - rewrite in_map_iff. split.
    + intros [x [Hx I]]. now injection Hx as ->.
    + intro I. now exists m.
  - rewrite F. simpl. intuition discriminate.
  - rewrite F. simpl. intuition discriminate.
Qed.


(** C9, as amended: the "no memories yet" message is shown exactly when no
    memory exists and the filter is empty; the "no results" message, with the
    filter in it, exactly when the filter is not empty and matches no memory
    (also when no memory exists at all); and the two are never shown
    together. *)
Theorem empty_states :
  forall st,
    (In p_empty_state (memory_list toLowerCase st)
     <-> memories st = [] /\ searchTerm st = [])
    /\ (forall t, In (p_no_results t) (memory_list toLowerCase st)
                  <-> t = searchTerm st /\ searchTerm st <> []
                      /\ filteredMemories toLowerCase st = [])
    /\ ~ (In p_empty_state (memory_list toLowerCase st)
          /\ exists t, In (p_no_results t) (memory_list toLowerCase st)).
Proof.
  intro st.
  assert (N : forall (n : Node) l, (forall m, n <> li m) -> ~ In n (map li l)).
  { intros n l D H. apply in_map_iff in H as [m [E _]]. now apply (D m). }
  destruct (memory_list_cases st) as [[F E] | [[F [T E]] | [F [T E]]]]; rewrite E;
    (split; [split | split; [intro t; split|]]).
  - intro H. now apply N in H.
  - intros [M S]. rewrite (filteredMemories_no_filter st S) in F. contradiction.
  - intro H. now apply N in H.
  - intros [_ [_ H]]. contradiction.
  - intros [H _]. now apply N in H.
  - intro H. simpl in H. intuition discriminate.
  - intros [_ S]. contradiction.
  - intro H. simpl in H. destruct H as [H | []]. injection H as <-. auto.
  - intros [-> _]. now left.
  - intros [H _]. simpl in H. intuition discriminate.
  - intros _. split; [|exact T].
    rewrite <- (filteredMemories_no_filter st T). exact F.
  - intros _. now left.
  - intro H. simpl in H. intuition discriminate.
  - intros [_ [S _]]. contradiction.
  - intros [_ [t H]]. simpl in H. intuition discriminate.
Qed.

End Filter.

(** The rendering of [src/App.jsx] shows neither message. *)
Lemma memory_list_plain_items (toLowerCase : jsstring -> jsstring) (st : AppState) :
  ~ In p_empty_state (memory_list_plain toLowerCase st)
  /\ forall t, ~ In (p_no_results t) (memory_list_plain toLowerCase st).
Proof.
  unfold memory_list_plain. split; [|intro t]; intro H;
    apply in_map_iff in H as [m [E _]]; discriminate E.
Qed.


Lemma empty_states_witness :
  (forall s, isBasicLatin s -> toLowerCase_basic s = toLowerCase_basic s)
  /\ In p_empty_state (memory_list toLowerCase_basic (app fresh_world))
  /\ In (p_no_results (lit "almond"))
        (memory_list toLowerCase_basic (searching (lit "almond"))).
Proof.
  split; [exact toLowerCase_basic_on_basic_latin|].
  destruct (@empty_states toLowerCase_basic toLowerCase_basic_on_basic_latin
                         (app fresh_world)) as [H _].
  destruct (@empty_states toLowerCase_basic toLowerCase_basic_on_basic_latin
                         (searching (lit "almond"))) as [_ [K _]].
  split.
  - apply H. split; reflexivity.
  - apply K. split; [reflexivity|]. split; [vm_compute; discriminate | reflexivity].
Defined.

(** C9, as stated, fails: with no memory at all and a filter typed in, the
    "no results" message is shown, not the "no memories yet" one. *)
Lemma no_memories_but_filter :
  memories filter_before_first_note = []
  /\ memory_list toLowerCase_basic filter_before_first_note = [p_no_results (lit "milk")]
  /\ ~ In p_empty_state (memory_list toLowerCase_basic filter_before_first_note).
Proof.
  split; [reflexivity|]. split; [reflexivity|].
  vm_compute. intuition discriminate.
Qed.

(** ** Listening without a recognition device *)

Lemma configure_None (cs : list Call) : fold_left configure cs None = None.
Proof. induction cs as [|c cs IH]; simpl; [reflexivity|]. now destruct c. Qed.

Lemma isListening_fold (cs : list Call) (st : AppState) :
  existsb is_setIsListening cs = false ->
  isListening (fold_left reduce cs st) = isListening st.
Proof.
  revert st. induction cs as [|c cs IH]; intros st H; simpl in *; [reflexivity|].
  apply orb_false_iff in H as [Hc Hcs]. rewrite (IH _ Hcs).
  destruct c; try discriminate; reflexivity.
Qed.

Lemma loadVoices_quiet (vs : list Voice) : existsb is_setIsListening (loadVoices vs) = false.
Proof. unfold loadVoices. now destruct (0 <? List.length vs)%nat. Qed.

Lemma saveMemoriesEffect_quiet (o : StorageWrite) (st : AppState) :
  existsb is_setIsListening (saveMemoriesEffect o st) = false.
Proof. now destruct o. Qed.

Lemma recognitionEffect_quiet (r : option Recognition) (st : AppState) :
  existsb is_setIsListening (recognitionEffect r st) = false.
Proof. destruct r; simpl; [now destruct (isListening st) | reflexivity]. Qed.

Lemma loadMemoriesEffect_quiet (read : StorageRead) (load : list Call) :
  loadMemoriesEffect read = Calls load -> existsb is_setIsListening load = false.
Proof.
  unfold loadMemoriesEffect. intro H.
  destruct read as [|[s|]]; try (injection H as <-; reflexivity).
  destruct (truthy s); [|injection H as <-; reflexivity].
  destruct (JSON.parse s) as [v|]; [|injection H as <-; reflexivity].
  destruct (memories_of_value v); [injection H as <-; reflexivity | discriminate].
Qed.

Lemma effects_quiet (o : StorageWrite) (w : World) (cs : list Call) :
  existsb is_setIsListening (effects o w cs) = false.
Proof.
  unfold effects. rewrite existsb_app. apply orb_false_iff. split.
  - destruct (Bool.eqb _ _); [reflexivity | apply recognitionEffect_quiet].
  - destruct (existsb is_setMemories cs); [apply saveMemoriesEffect_quiet | reflexivity].
Qed.

Lemma handle_quiet (e : Event) (w : World) :
  recognition w = None -> existsb is_setIsListening (handle e w) = false.
Proof.
  intro R. destruct e; cbn [handle]; rewrite ?R; try reflexivity.
  - unfold handleAddMemory. now destruct (str_eqb _ _).
  - unfold handleSpeak. destruct (synthesis w); [|reflexivity].
    now destruct (find _ _).
  - destruct (synthesis w); [apply loadVoices_quiet | reflexivity].
Qed.

Lemma step_without_recognition (o : StorageWrite) (e : Event) (w : World) :
  recognition w = None ->
  recognition (fst (step o e w)) = None
  /\ isListening (app (fst (step o e w))) = isListening (app w).
Proof.
  intro R. unfold step. cbn [fst perform recognition app]. split.
  - rewrite R. apply configure_None.
  - apply isListening_fold. rewrite existsb_app, (handle_quiet e w R), effects_quiet.
    reflexivity.
Qed.

Lemma mount_without_recognition (p : Platform) (read : StorageRead)
      (o1 o2 : StorageWrite) (w0 : World) (log : list Call) :
  SpeechRecognition p = false ->
  mount p read o1 o2 = Running w0 log ->
  recognition w0 = None /\ isListening (app w0) = false.
Proof.
  intros S M. unfold mount, useMemo_recognition in M. rewrite S in M.
  destruct (speechSynthesis p) as [vs|]; [|discriminate].
  destruct (loadMemoriesEffect read) as [load|] eqn:L; [|discriminate].
  injection M as <- _. cbn [perform recognition app]. split.
  - rewrite !configure_None. reflexivity.
  - rewrite !isListening_fold; [reflexivity | | ].
    + rewrite !existsb_app, loadVoices_quiet, (loadMemoriesEffect_quiet _ L),
        saveMemoriesEffect_quiet. reflexivity.
    + destruct (existsb is_setMemories load);
        [apply saveMemoriesEffect_quiet | reflexivity].
Qed.

Lemma reachable_without_recognition (w0 w : World) :
  recognition w0 = None -> isListening (app w0) = false ->
  Reachable w0 w ->
  recognition w = None /\ isListening (app w) = false.
Proof.
  intros R0 L0 H. induction H as [|w o e H [R L]].
  - split; assumption.
  - destruct (step_without_recognition o e w R) as [R' L']. split; congruence.
Qed.

(** C7: on a host without the recognition capability no instance exists; in
    every world the running component reaches the listening flag is off, and a
    click on the microphone leaves the whole world as it is, shows the notice
    and calls neither device. *)
Theorem toggle_without_recognition (p : Platform) (read : StorageRead)
        (o1 o2 o : StorageWrite) (w0 w : World) (log : list Call) :
  SpeechRecognition p = false ->
  mount p read o1 o2 = Running w0 log ->
  Reachable w0 w ->
  recognition w = None
  /\ isListening (app w) = false
  /\ step o ClickMic w
     = (w, [alert (lit "Sorry, your browser does not support voice recognition.")])
  /\ existsb is_device_call (snd (step o ClickMic w)) = false.
Proof.
  intros S M H.
  destruct (mount_without_recognition p read o1 o2 S M) as [R0 L0].
  destruct (reachable_without_recognition R0 L0 H) as [R L].
  assert (E : step o ClickMic w
              = (w, [alert (lit "Sorry, your browser does not support voice recognition.")])).
  { unfold step, effects. cbn [handle]. rewrite R. cbn [handleListen].
    cbn [fold_left reduce existsb is_setMemories orb].
    rewrite Bool.eqb_reflx. cbn [List.app].
    rewrite perform_inert by reflexivity. reflexivity. }
  repeat split; try assumption. rewrite E. reflexivity.
Qed.

Lemma toggle_without_recognition_witness :
  SpeechRecognition bare_platform = false
  /\ mount bare_platform (ReadValue None) Stored Stored
     = Running fresh_world [localStorage_setItem storage_key (lit "[]")]
  /\ Reachable fresh_world world_two_notes
  /\ isListening (app world_two_notes) = false
  /\ step Stored ClickMic world_two_notes
     = (world_two_notes,
        [alert (lit "Sorry, your browser does not support voice recognition.")]).
Proof.
  assert (M : mount bare_platform (ReadValue None) Stored Stored
              = Running fresh_world [localStorage_setItem storage_key (lit "[]")])
    by (vm_compute; reflexivity).
  assert (H : Reachable fresh_world world_two_notes).
  { unfold world_two_notes, adds. cbn [fold_left]. unfold add.
    repeat apply reach_step. apply reach_mounted. }
  destruct (@toggle_without_recognition bare_platform (ReadValue None) Stored Stored
              Stored fresh_world world_two_notes _ eq_refl M H) as [_ [L [E _]]].
  repeat split; assumption.
Defined.

(** ** Playback *)

Lemma find_first (A : Type) (f : A -> bool) (before after : list A) (v : A) :
  Forall (fun x => f x = false) before -> f v = true ->
  find f (before ++ v :: after) = Some v.
Proof.
  intros B V. induction B as [|x before X _ IH]; simpl.
  - now rewrite V.
  - now rewrite X.
Qed.

Lemma find_nothing (A : Type) (f : A -> bool) (l : list A) :
  Forall (fun x => f x = false) l -> find f l = None.
Proof.
  intro H. induction H as [|x l X _ IH]; simpl; [reflexivity|]. now rewrite X.
Qed.

Lemma not_prefix (p s : jsstring) : ~ prefix_of p s <-> startsWith s p = false.
Proof.
  rewrite <- startsWith_prefix. destruct (startsWith s p); split; congruence.
Qed.

(** Where ['speechSynthesis' in window] holds, what a click on a play button
    does. *)
Lemma handleSpeak_in_window (o : StorageWrite) (textToSpeak : jsstring) (w : World) :
  synthesis w = true ->
  fst (step o (ClickSpeak textToSpeak) w) = w
  /\ (forall before v after,
         voices (app w) = before ++ v :: after ->
         Forall (fun x => ~ prefix_of (language (app w)) (lang x)) before ->
         prefix_of (language (app w)) (lang v) ->
         snd (step o (ClickSpeak textToSpeak) w)
         = [speechSynthesis_cancel;
            speechSynthesis_speak {| utterance_text := textToSpeak; voice := Some v |}])
  /\ (Forall (fun x => ~ prefix_of (language (app w)) (lang x)) (voices (app w)) ->
      snd (step o (ClickSpeak textToSpeak) w)
      = [speechSynthesis_cancel;
         console_warn (lit "No voice found for language: " ++ language (app w)
                       ++ lit ". Using default.");
         speechSynthesis_speak {| utterance_text := textToSpeak; voice := None |}]).
Proof.
  intro S.
  assert (Q : forall cs, handle (ClickSpeak textToSpeak) w = cs -> forallb inert cs = true ->
                         step o (ClickSpeak textToSpeak) w = (w, cs)).
  { intros cs E I. unfold step, effects. rewrite E.
    assert (K : existsb is_setMemories cs = false).
    { clear E. induction cs as [|c cs IH]; [reflexivity|]. simpl in *.
      apply andb_true_iff in I as [Ic Ics]. rewrite (IH Ics).
      destruct c; try discriminate; reflexivity. }
    rewrite K.
    assert (F : fold_left reduce cs (app w) = app w).
    { apply fold_inert; [|exact I].
      intros a c Hc. destruct c; try discriminate; reflexivity. }
    rewrite F, Bool.eqb_reflx. cbn [List.app]. rewrite app_nil_r.
    now rewrite perform_inert. }
  assert (W : forall x, ~ prefix_of (language (app w)) (lang x) ->
                        startsWith (lang x) (language (app w)) = false)
    by (intros x; apply not_prefix).
  cbn [handle] in Q. unfold handleSpeak in Q. rewrite S in Q.
  split; [|split].
  - destruct (find _ (voices (app w))); rewrite (Q _ eq_refl) by reflexivity; reflexivity.
  - intros before v after E B V.
    rewrite E in Q. rewrite (find_first _ after) in Q.
    + rewrite (Q _ eq_refl) by reflexivity. reflexivity.
    + eapply Forall_impl; [|exact B]. exact W.
    + now apply startsWith_prefix.
  - intro B. rewrite find_nothing in Q.
    + rewrite (Q _ eq_refl) by reflexivity. reflexivity.
    + eapply Forall_impl; [|exact B]. exact W.
Qed.

Lemma mount_synthesis (p : Platform) (read : StorageRead) (o1 o2 : StorageWrite)
      (w0 : World) (log : list Call) :
  mount p read o1 o2 = Running w0 log -> synthesis w0 = true.
Proof.
  unfold mount. destruct (speechSynthesis p); [|discriminate].
  destruct (loadMemoriesEffect read); [|discriminate].
  intro H. injection H as <- _. reflexivity.
Qed.

Lemma reachable_synthesis (w0 w : World) :
  Reachable w0 w -> synthesis w = synthesis w0.
Proof. intro H. induction H as [|w o e H IH]; [reflexivity | exact IH]. Qed.

Lemma reachable_two_notes : Reachable fresh_world world_two_notes.
Proof.
  unfold world_two_notes, adds. cbn [fold_left]. unfold add.
  repeat apply reach_step. apply reach_mounted.
Qed.

(** C8: in every world the running component reaches, a click on a play
    button leaves the world as it is, cancels the utterance in flight and
    speaks the text: with the first listed voice whose locale tag starts with
    the selected language when there is one, otherwise with no voice set (the
    platform default) and after a logged warning.  The handler has no failing
    path. *)
Theorem speak_selects_voice (p : Platform) (read : StorageRead)
        (o1 o2 o : StorageWrite) (w0 w : World) (log : list Call)
        (textToSpeak : jsstring) :
  mount p read o1 o2 = Running w0 log ->
  Reachable w0 w ->
  fst (step o (ClickSpeak textToSpeak) w) = w
  /\ (forall before v after,
         voices (app w) = before ++ v :: after ->
         Forall (fun x => ~ prefix_of (language (app w)) (lang x)) before ->
         prefix_of (language (app w)) (lang v) ->
         snd (step o (ClickSpeak textToSpeak) w)
         = [speechSynthesis_cancel;
            speechSynthesis_speak {| utterance_text := textToSpeak; voice := Some v |}])
  /\ (Forall (fun x => ~ prefix_of (language (app w)) (lang x)) (voices (app w)) ->
      snd (step o (ClickSpeak textToSpeak) w)
      = [speechSynthesis_cancel;
         console_warn (lit "No voice found for language: " ++ language (app w)
                       ++ lit ". Using default.");
         speechSynthesis_speak {| utterance_text := textToSpeak; voice := None |}]).
Proof.
  intros M H. apply handleSpeak_in_window.
  rewrite (reachable_synthesis H). exact (mount_synthesis _ _ _ _ M).
Qed.

Lemma speak_selects_voice_witness :
  mount bare_platform (ReadValue None) Stored Stored
  = Running fresh_world [localStorage_setItem storage_key (lit "[]")]
  /\ Reachable fresh_world world_with_voices
  /\ voices (app world_with_voices) = [voice_en_GB] ++ voice_en_US :: [voice_en_US_2]
  /\ snd (step Stored (ClickSpeak (lit "Buy Milk")) world_with_voices)
     = [speechSynthesis_cancel;
        speechSynthesis_speak
          {| utterance_text := lit "Buy Milk"; voice := Some voice_en_US |}].
Proof.
  assert (M : mount bare_platform (ReadValue None) Stored Stored
              = Running fresh_world [localStorage_setItem storage_key (lit "[]")])
    by (vm_compute; reflexivity).
  assert (H : Reachable fresh_world world_with_voices)
    by (apply reach_step, reachable_two_notes).
  split; [exact M|]. split; [exact H|]. split; [reflexivity|].
  destruct (@speak_selects_voice bare_platform (ReadValue None) Stored Stored Stored
              fresh_world world_with_voices _ (lit "Buy Milk") M H) as [_ [V _]].
  apply (V [voice_en_GB] voice_en_US [voice_en_US_2] eq_refl).
  - repeat constructor. intro P. apply startsWith_prefix in P. vm_compute in P. discriminate P.
  - exists []. reflexivity.
Defined.

(** ** The stored text *)

Module JSONFacts.
Import JSON.

Lemma hexval_hexdigit (d : N) : (d < 16)%N -> hexval (hexdigit d) = Some d.
Proof.
  intro H.
  assert (C : In d [0;1;2;3;4;5;6;7;8;9;10;11;12;13;14;15]%N).
  { simpl. lia. }
  simpl in C. repeat (destruct C as [<- | C]; [reflexivity|]). contradiction.
Qed.

Lemma hex_digits (u : N) :
  (u < 65536)%N ->
  ((((u / 4096) mod 16 * 16 + (u / 256) mod 16) * 16 + (u / 16) mod 16) * 16
   + u mod 16 = u)%N.
Proof.
  intro H.
  pose proof (N.div_mod u 16 ltac:(lia)) as E1.
  pose proof (N.div_mod (u / 16) 16 ltac:(lia)) as E2.
  pose proof (N.div_mod (u / 256) 16 ltac:(lia)) as E3.
  assert (D2 : (u / 16 / 16 = u / 256)%N) by (now rewrite N.Div0.div_div).
  assert (D3 : (u / 256 / 16 = u / 4096)%N) by (now rewrite N.Div0.div_div).
  assert (S : (u / 4096 < 16)%N) by (apply N.Div0.div_lt_upper_bound; lia).
  rewrite (N.mod_small (u / 4096) 16 S).
  rewrite D2 in E2. rewrite D3 in E3. lia.
Qed.

(** A [\uXXXX] escape reads back as the unit it was written for. *)
Lemma parse_chars_escape (u : N) (tl : jsstring) :
  (u < 65536)%N ->
  parse_chars (unicode_escape u ++ tl)
  = match parse_chars tl with
    | Some (t, rest) => Some (u :: t, rest)
    | None => None
    end.
Proof.
  intro H. unfold unicode_escape. cbn [List.app parse_chars N.eqb Pos.eqb].
  rewrite !hexval_hexdigit by (apply N.mod_lt; lia).
  rewrite (hex_digits H). reflexivity.
Qed.

Lemma plain_unit (u : N) (tl : jsstring) :
  (u =? 0x22)%N = false -> (u =? 0x5C)%N = false -> (u <? 0x20)%N = false ->
  parse_chars (u :: tl)
  = match parse_chars tl with
    | Some (t, rest) => Some (u :: t, rest)
    | None => None
    end.
Proof. intros A B C. cbn [parse_chars]. now rewrite A, B, C. Qed.

Lemma surrogate_plain (u : N) :
  isLeadSurrogate u = true \/ isTrailSurrogate u = true ->
  (u =? 0x22)%N = false /\ (u =? 0x5C)%N = false /\ (u <? 0x20)%N = false
  /\ (u < 65536)%N.
Proof.
  unfold isLeadSurrogate, isTrailSurrogate.
  rewrite !andb_true_iff, !N.leb_le, !N.eqb_neq, N.ltb_ge. lia.
Qed.

(** What [QuoteJSONString] writes between the quotes reads back unchanged. *)
Lemma parse_chars_quote_units (s rest : jsstring) :
  parse_chars (quote_units s ++ 0x22%N :: rest) = Some (s, rest).
Proof.
  assert (G : forall n s, (List.length s <= n)%nat ->
                          parse_chars (quote_units s ++ 0x22%N :: rest) = Some (s, rest)).
  { clear s. induction n as [|n IH]; intros [|u s] L; cbn [List.length] in L;
      try reflexivity; try lia.
    assert (IHs : parse_chars (quote_units s ++ 0x22%N :: rest) = Some (s, rest))
      by (apply IH; lia).
    cbn [quote_units].
    destruct (u =? 0x08)%N eqn:E1;
      [apply N.eqb_eq in E1; subst u; cbn; now rewrite IHs|].
    destruct (u =? 0x09)%N eqn:E2;
      [apply N.eqb_eq in E2; subst u; cbn; now rewrite IHs|].
    destruct (u =? 0x0A)%N eqn:E3;
      [apply N.eqb_eq in E3; subst u; cbn; now rewrite IHs|].
    destruct (u =? 0x0C)%N eqn:E4;
      [apply N.eqb_eq in E4; subst u; cbn; now rewrite IHs|].
    destruct (u =? 0x0D)%N eqn:E5;
      [apply N.eqb_eq in E5; subst u; cbn; now rewrite IHs|].
    destruct (u =? 0x22)%N eqn:E6;
      [apply N.eqb_eq in E6; subst u; cbn; now rewrite IHs|].
    destruct (u =? 0x5C)%N eqn:E7;
      [apply N.eqb_eq in E7; subst u; cbn; now rewrite IHs|].
    destruct (u <? 0x20)%N eqn:E8.
    { rewrite <- app_assoc, parse_chars_escape, IHs; [reflexivity|].
      apply N.ltb_lt in E8. lia. }
    destruct (isLeadSurrogate u) eqn:E9.
    { destruct (surrogate_plain u (or_introl E9)) as [_ [_ [_ U]]].
      destruct s as [|v s'].
      - rewrite parse_chars_escape by exact U. reflexivity.
      - destruct (isTrailSurrogate v) eqn:E10.
        + destruct (surrogate_plain v (or_intror E10)) as [V1 [V2 [V3 _]]].
          cbn [List.app]. rewrite (@plain_unit _ _ E6 E7 E8), (@plain_unit _ _ V1 V2 V3).
          rewrite IH by (cbn [List.length] in L; lia). reflexivity.
        + rewrite <- app_assoc, parse_chars_escape, IHs; [reflexivity | exact U]. }
    destruct (isTrailSurrogate u) eqn:E10.
    { destruct (surrogate_plain u (or_intror E10)) as [_ [_ [_ U]]].
      rewrite <- app_assoc, parse_chars_escape, IHs; [reflexivity | exact U]. }
    cbn [List.app]. rewrite (@plain_unit _ _ E6 E7 E8), IHs. reflexivity. }
  apply (G (List.length s)). lia.
Qed.

Lemma parse_chars_quote (s rest : jsstring) :
  exists body, quote s ++ rest = 0x22%N :: body /\ parse_chars body = Some (s, rest).
Proof.
  exists (quote_units s ++ 0x22%N :: rest). split.
  - unfold quote. cbn [List.app]. now rewrite <- app_assoc.
  - apply parse_chars_quote_units.
Qed.

(** *** Integers *)

Lemma take_digits_units (d : Decimal.uint) (rest : jsstring) :
  match rest with [] => True | c :: _ => isDigit c = false end ->
  take_digits (units_of_uint d ++ rest) = (digit_values d, rest).
Proof.
  intro H. induction d; cbn [units_of_uint digit_values List.app];
    try (cbn [take_digits]; rewrite IHd; reflexivity).
  destruct rest as [|c r]; cbn [take_digits]; [reflexivity | now rewrite H].
Qed.

Lemma uint_of_digit_values (d : Decimal.uint) : uint_of_digits (digit_values d) = d.
Proof.
  unfold uint_of_digits. induction d; cbn [digit_values fold_right digit];
    [reflexivity | rewrite IHd; reflexivity ..].
Qed.

Lemma units_head (d : Decimal.uint) (rest : jsstring) :
  d <> Decimal.Nil ->
  exists c r, units_of_uint d ++ rest = c :: r /\ isDigit c = true.
Proof.
  intro H. destruct d; [contradiction | ..]; cbn [units_of_uint List.app];
    eexists; eexists; (split; [reflexivity | reflexivity]).
Qed.

(** [N.to_uint] writes no leading zero. *)
Lemma to_uint_normal (n : N) :
  N.to_uint n <> Decimal.Nil
  /\ forall d', N.to_uint n = Decimal.D0 d' -> d' = Decimal.Nil.
Proof.
  assert (U : Decimal.unorm (N.to_uint n) = N.to_uint n).
  { rewrite <- DecimalN.Unsigned.to_of, DecimalN.Unsigned.of_to. reflexivity. }
  split.
  - rewrite <- U. apply DecimalFacts.unorm_nonnil.
  - intros d' E. rewrite E in U. unfold Decimal.unorm in U.
    destruct (Decimal.nzhead (Decimal.D0 d')) eqn:Z;
      try (exfalso; apply (DecimalFacts.nzhead_nonzero (Decimal.D0 d') d');
           rewrite Z; exact U).
    now injection U.
Qed.

Lemma digit_values_normal (n : N) :
  exists dv ds,
    digit_values (N.to_uint n) = dv :: ds
    /\ ((dv =? 0)%N && negb (match ds with [] => true | _ => false end)) = false.
Proof.
  destruct (to_uint_normal n) as [NN Z].
  destruct (N.to_uint n) as [|d|d|d|d|d|d|d|d|d|d]; [contradiction | ..];
    cbn [digit_values]; eexists; eexists; (split; [reflexivity|]); try reflexivity.
  rewrite (Z d eq_refl). reflexivity.
Qed.

Lemma parse_unsigned_units (neg : bool) (n : N) (rest : jsstring) :
  parse_unsigned neg (units_of_uint (N.to_uint n) ++ 0x2C%N :: rest)
  = Some (Number (if neg then (- Z.of_N n)%Z else Z.of_N n) 0, 0x2C%N :: rest).
Proof.
  unfold parse_unsigned. rewrite take_digits_units by reflexivity.
  destruct (digit_values_normal n) as [dv [ds [E L]]].
  rewrite E, L. cbn [parse_frac parse_exp N.eqb Pos.eqb orb List.length].
  rewrite app_nil_r, <- E. unfold digits_value.
  rewrite uint_of_digit_values, DecimalN.Unsigned.of_to. reflexivity.
Qed.

Lemma integer_head (z : Z) (rest : jsstring) :
  exists c r, integer_to_string z ++ rest = c :: r
              /\ (c = 0x2D%N \/ isDigit c = true).
Proof.
  unfold integer_to_string. destruct (z <? 0)%Z.
  - eexists; eexists. split; [reflexivity | now left].
  - destruct (units_head rest (proj1 (to_uint_normal (Z.abs_N z)))) as [c [r [E D]]].
    exists c, r. split; [exact E | now right].
Qed.

Lemma parse_number_integer (z : Z) (rest : jsstring) :
  parse_number (integer_to_string z ++ 0x2C%N :: rest)
  = Some (Number z 0, 0x2C%N :: rest).
Proof.
  unfold integer_to_string. destruct (z <? 0)%Z eqn:S.
  - cbn [List.app parse_number N.eqb Pos.eqb]. rewrite parse_unsigned_units.
    rewrite N2Z.inj_abs_N. apply Z.ltb_lt in S. do 3 f_equal. lia.
  - destruct (units_head (0x2C%N :: rest) (proj1 (to_uint_normal (Z.abs_N z))))
      as [c [r [E D]]].
    assert (P : parse_number (units_of_uint (N.to_uint (Z.abs_N z)) ++ 0x2C%N :: rest)
                = parse_unsigned false
                    (units_of_uint (N.to_uint (Z.abs_N z)) ++ 0x2C%N :: rest)).
    { rewrite E. cbn [parse_number].
      destruct (c =? 0x2D)%N eqn:C; [|reflexivity].
      apply N.eqb_eq in C. subst c. discriminate D. }
    rewrite P, parse_unsigned_units, N2Z.inj_abs_N.
    apply Z.ltb_ge in S. do 3 f_equal. lia.
Qed.

Lemma parse_value_integer (fuel : nat) (z : Z) (rest : jsstring) :
  parse_value (S fuel) (integer_to_string z ++ 0x2C%N :: rest)
  = Ok (Number z 0, 0x2C%N :: rest).
Proof.
  pose proof (parse_number_integer z rest) as P.
  destruct (integer_head z (0x2C%N :: rest)) as [c [r [E H]]].
  rewrite E in *. cbn [parse_value].
  assert (C : (c =? 0x22)%N = false /\ (c =? 0x5B)%N = false /\ (c =? 0x7B)%N = false
              /\ (c =? 0x74)%N = false /\ (c =? 0x66)%N = false
              /\ (c =? 0x6E)%N = false).
  { rewrite !N.eqb_neq. destruct H as [-> | D]; [repeat split; discriminate|].
    unfold isDigit in D. apply andb_true_iff in D as [D1 D2].
    apply N.leb_le in D1, D2. lia. }
  destruct C as [C1 [C2 [C3 [C4 [C5 C6]]]]].
  rewrite C1, C2, C3, C4, C5, C6, P. reflexivity.
Qed.

Lemma parse_value_string (fuel : nat) (t rest : jsstring) :
  parse_value (S fuel) (quote t ++ rest) = Ok (Str t, rest).
Proof.
  destruct (parse_chars_quote t rest) as [body [E P]].
  rewrite E. cbn [parse_value N.eqb Pos.eqb]. rewrite P. reflexivity.
Qed.

(** *** The parser consumes what it reads, and its fuel is enough *)

Lemma skip_ws_length (s : jsstring) : (List.length (skip_ws s) <= List.length s)%nat.
Proof.
  induction s as [|u s IH]; cbn [skip_ws]; [apply le_n|].
  destruct (isJSONWhiteSpace u); cbn [List.length]; lia.
Qed.

Lemma parse_chars_length (s t r : jsstring) :
  parse_chars s = Some (t, r) -> (List.length r < List.length s)%nat.
Proof.
  assert (G : forall n s t r, (List.length s <= n)%nat -> parse_chars s = Some (t, r) ->
                              (List.length r < List.length s)%nat).
  { clear. induction n as [|n IH]; intros [|u s] t r L P; cbn [List.length] in *;
      try discriminate P; try lia.
    cbn [parse_chars] in P.
    destruct (u =? 0x22)%N; [injection P as _ <-; lia|].
    destruct (u =? 0x5C)%N.
    - destruct s as [|c s]; [discriminate P|].
      destruct (c =? 0x75)%N.
      + destruct s as [|h1 [|h2 [|h3 [|h4 s]]]]; try discriminate P.
        destruct (hexval h1), (hexval h2), (hexval h3), (hexval h4); try discriminate P.
        destruct (parse_chars s) as [[t' r']|] eqn:Q; [|discriminate P].
        injection P as _ <-. apply IH in Q; cbn [List.length] in *; lia.
      + destruct (unescape c); [|discriminate P].
        destruct (parse_chars s) as [[t' r']|] eqn:Q; [|discriminate P].
        injection P as _ <-. apply IH in Q; cbn [List.length] in *; lia.
    - destruct (u <? 0x20)%N; [discriminate P|].
      destruct (parse_chars s) as [[t' r']|] eqn:Q; [|discriminate P].
      injection P as _ <-. apply IH in Q; lia. }
  apply (G (List.length s)). lia.
Qed.

Lemma take_digits_length (s : jsstring) (ds : list N) (r : jsstring) :
  take_digits s = (ds, r) -> (List.length r + List.length ds = List.length s)%nat.
Proof.
  revert ds r. induction s as [|u s IH]; intros ds r T; cbn [take_digits] in T.
  - injection T as <- <-. reflexivity.
  - destruct (isDigit u).
    + destruct (take_digits s) as [ds' r'] eqn:Q. injection T as <- <-.
      specialize (IH _ _ eq_refl). cbn [List.length]. lia.
    + injection T as <- <-. cbn [List.length]. lia.
Qed.

Lemma parse_frac_length (s : jsstring) (fs : list N) (r : jsstring) :
  parse_frac s = Some (fs, r) -> (List.length r <= List.length s)%nat.
Proof.
  unfold parse_frac. destruct s as [|u s]; [intro H; injection H as _ <-; lia|].
  destruct (u =? 0x2E)%N; [|intro H; injection H as _ <-; lia].
  destruct (take_digits s) as [[|f fs'] r'] eqn:T; [discriminate|].
  intro H. injection H as _ <-. apply take_digits_length in T. cbn [List.length] in *. lia.
Qed.

Lemma parse_exp_digits_length (neg : bool) (s : jsstring) (x : Z) (r : jsstring) :
  parse_exp_digits neg s = Some (x, r) -> (List.length r <= List.length s)%nat.
Proof.
  unfold parse_exp_digits. destruct (take_digits s) as [[|e es] r'] eqn:T; [discriminate|].
  intro H. injection H as _ <-. apply take_digits_length in T. lia.
Qed.

Lemma parse_exp_length (s : jsstring) (x : Z) (r : jsstring) :
  parse_exp s = Some (x, r) -> (List.length r <= List.length s)%nat.
Proof.
  unfold parse_exp. destruct s as [|u s]; [intro H; injection H as _ <-; lia|].
  destruct ((u =? 0x65) || (u =? 0x45))%N; [|intro H; injection H as _ <-; lia].
  destruct s as [|c s]; [discriminate|].
  destruct (c =? 0x2B)%N; [|destruct (c =? 0x2D)%N];
    intro H; apply parse_exp_digits_length in H; cbn [List.length] in *; lia.
Qed.

Lemma parse_unsigned_length (neg : bool) (s : jsstring) (v : value) (r : jsstring) :
  parse_unsigned neg s = Some (v, r) -> (List.length r < List.length s)%nat.
Proof.
  unfold parse_unsigned. destruct (take_digits s) as [[|d ds] r0] eqn:T; [discriminate|].
  destruct ((d =? 0)%N && _); [discriminate|].
  destruct (parse_frac r0) as [[fs r1]|] eqn:F; [|discriminate].
  destruct (parse_exp r1) as [[x r2]|] eqn:X; [|discriminate].
  intro H. injection H as _ <-.
  apply take_digits_length in T. apply parse_frac_length in F. apply parse_exp_length in X.
  cbn [List.length] in T. lia.
Qed.

Lemma parse_number_length (s : jsstring) (v : value) (r : jsstring) :
  parse_number s = Some (v, r) -> (List.length r < List.length s)%nat.
Proof.
  unfold parse_number. destruct s as [|u s]; [discriminate|].
  destruct (u =? 0x2D)%N; intro H; apply parse_unsigned_length in H;
    cbn [List.length] in *; lia.
Qed.

Lemma keyword_length (u : N) (s : jsstring) (w : string) (k v : value) (r : jsstring) :
  (0 < String.length w)%nat ->
  keyword (u :: s) w k = Ok (v, r) ->
  (List.length r < List.length (u :: s))%nat.
Proof.
  unfold keyword. intros W H. destruct (startsWith (u :: s) (lit w)); [|discriminate].
  injection H as _ <-. destruct (String.length w) as [|n]; [lia|].
  cbn [skipn List.length]. pose proof (length_skipn n s). lia.
Qed.

(** With fuel above twice the length of the text the parser never stops for
    want of fuel, and what it leaves is shorter than what it was given. *)
Lemma parse_fuel (fuel : nat) :
  (forall s, (2 * List.length s + 1 <= fuel)%nat ->
             parse_value fuel s <> OutOfFuel
             /\ forall v r, parse_value fuel s = Ok (v, r) ->
                            (List.length r < List.length s)%nat)
  /\ (forall s, (2 * List.length s + 2 <= fuel)%nat ->
                parse_elements fuel s <> OutOfFuel
                /\ forall vs r, parse_elements fuel s = Ok (vs, r) ->
                                (List.length r < List.length s)%nat)
  /\ (forall s, (2 * List.length s + 2 <= fuel)%nat ->
                parse_members fuel s <> OutOfFuel
                /\ forall ms r, parse_members fuel s = Ok (ms, r) ->
                                (List.length r < List.length s)%nat).
Proof.
  induction fuel as [|fuel [IHv [IHe IHm]]].
  - repeat split; intros; lia.
  - split; [|split]; intros s F.
    + destruct s as [|u s]; cbn [parse_value].
      { split; [discriminate | intros; discriminate]. }
      cbn [List.length] in F.
      destruct (u =? 0x22)%N.
      { destruct (parse_chars s) as [[t r]|] eqn:P;
          (split; [discriminate|]); intros v r' H; [|discriminate].
        injection H as _ <-. apply parse_chars_length in P. cbn [List.length]. lia. }
      destruct (u =? 0x5B)%N.
      { pose proof (skip_ws_length s) as W.
        destruct (skip_ws s) as [|c r]; [split; [discriminate | intros; discriminate]|].
        destruct (c =? 0x5D)%N.
        - split; [discriminate|]. intros v r' H. injection H as _ <-.
          cbn [List.length] in *. lia.
        - destruct (IHe (c :: r)) as [N L]; [cbn [List.length] in *; lia|].
          destruct (parse_elements fuel (c :: r)) as [[vs r']| |] eqn:E.
          + split; [discriminate|]. intros v r'' H. injection H as _ <-.
            specialize (L _ _ eq_refl). cbn [List.length] in *. lia.
          + split; [discriminate | intros; discriminate].
          + contradiction. }
      destruct (u =? 0x7B)%N.
      { pose proof (skip_ws_length s) as W.
        destruct (skip_ws s) as [|c r]; [split; [discriminate | intros; discriminate]|].
        destruct (c =? 0x7D)%N.
        - split; [discriminate|]. intros v r' H. injection H as _ <-.
          cbn [List.length] in *. lia.
        - destruct (IHm (c :: r)) as [N L]; [cbn [List.length] in *; lia|].
          destruct (parse_members fuel (c :: r)) as [[vs r']| |] eqn:E.
          + split; [discriminate|]. intros v r'' H. injection H as _ <-.
            specialize (L _ _ eq_refl). cbn [List.length] in *. lia.
          + split; [discriminate | intros; discriminate].
          + contradiction. }
      destruct (u =? 0x74)%N.
      { split; [unfold keyword; destruct (startsWith _ _); discriminate|].
        intros v r H. eapply keyword_length; [|exact H]. cbn. lia. }
      destruct (u =? 0x66)%N.
      { split; [unfold keyword; destruct (startsWith _ _); discriminate|].
        intros v r H. eapply keyword_length; [|exact H]. cbn. lia. }
      destruct (u =? 0x6E)%N.
      { split; [unfold keyword; destruct (startsWith _ _); discriminate|].
        intros v r H. eapply keyword_length; [|exact H]. cbn. lia. }
      destruct (parse_number (u :: s)) as [[v r]|] eqn:P; cbn [lift].
      * split; [discriminate|]. intros v' r' H. injection H as _ <-.
        now apply parse_number_length in P.
      * split; [discriminate | intros; discriminate].
    + cbn [parse_elements].
      destruct (IHv s) as [N L]; [lia|].
      destruct (parse_value fuel s) as [[v r]| |] eqn:V;
        [| split; [discriminate | intros; discriminate] | contradiction].
      specialize (L _ _ eq_refl).
      pose proof (skip_ws_length r) as W.
      destruct (skip_ws r) as [|c r']; [split; [discriminate | intros; discriminate]|].
      destruct (c =? 0x2C)%N.
      * pose proof (skip_ws_length r') as W'.
        destruct (IHe (skip_ws r')) as [N' L']; [cbn [List.length] in *; lia|].
        destruct (parse_elements fuel (skip_ws r')) as [[vs r'']| |] eqn:E;
          [| split; [discriminate | intros; discriminate] | contradiction].
        split; [discriminate|]. intros vs' r3 H. injection H as _ <-.
        specialize (L' _ _ eq_refl). cbn [List.length] in *. lia.
      * destruct (c =? 0x5D)%N; [|split; [discriminate | intros; discriminate]].
        split; [discriminate|]. intros vs' r3 H. injection H as _ <-.
        cbn [List.length] in *. lia.
    + cbn [parse_members].
      destruct s as [|q s]; [split; [discriminate | intros; discriminate]|].
      destruct (negb (q =? 0x22)%N); [split; [discriminate | intros; discriminate]|].
      destruct (parse_chars s) as [[k r]|] eqn:P;
        [|split; [discriminate | intros; discriminate]].
      apply parse_chars_length in P.
      pose proof (skip_ws_length r) as W.
      destruct (skip_ws r) as [|c r1]; [split; [discriminate | intros; discriminate]|].
      destruct (negb (c =? 0x3A)%N); [split; [discriminate | intros; discriminate]|].
      pose proof (skip_ws_length r1) as W1.
      destruct (IHv (skip_ws r1)) as [N L]; [cbn [List.length] in *; lia|].
      destruct (parse_value fuel (skip_ws r1)) as [[v r2]| |] eqn:V;
        [| split; [discriminate | intros; discriminate] | contradiction].
      specialize (L _ _ eq_refl).
      pose proof (skip_ws_length r2) as W2.
      destruct (skip_ws r2) as [|d r3]; [split; [discriminate | intros; discriminate]|].
      destruct (d =? 0x2C)%N.
      * pose proof (skip_ws_length r3) as W3.
        destruct (IHm (skip_ws r3)) as [N' L']; [cbn [List.length] in *; lia|].
        destruct (parse_members fuel (skip_ws r3)) as [[ms r4]| |] eqn:E;
          [| split; [discriminate | intros; discriminate] | contradiction].
        split; [discriminate|]. intros ms' r5 H. injection H as _ <-.
        specialize (L' _ _ eq_refl). cbn [List.length] in *. lia.
      * destruct (d =? 0x7D)%N; [|split; [discriminate | intros; discriminate]].
        split; [discriminate|]. intros ms' r5 H. injection H as _ <-.
        cbn [List.length] in *. lia.
Qed.

(** [parse_text] never runs out of fuel: [None] from [parse] is a syntax
    error. *)
Lemma parse_text_fuel (s : jsstring) : parse_text s <> OutOfFuel.
Proof.
  unfold parse_text, fuel_for.
  destruct (parse_fuel (2 * List.length s + 2)) as [V _].
  pose proof (skip_ws_length s) as W.
  destruct (V (skip_ws s)) as [N _]; [lia|].
  destruct (parse_value _ (skip_ws s)) as [[v r]| |]; [|discriminate | contradiction].
  destruct (skip_ws r); discriminate.
Qed.

(** *** Objects and arrays *)

Lemma quote_cons (t rest : jsstring) :
  quote t ++ rest = 0x22%N :: quote_units t ++ 0x22%N :: rest.
Proof. unfold quote. cbn [List.app]. now rewrite <- app_assoc. Qed.

Lemma skip_ws_quote (t rest : jsstring) : skip_ws (quote t ++ rest) = quote t ++ rest.
Proof. rewrite quote_cons. reflexivity. Qed.

Lemma skip_ws_integer (z : Z) (rest : jsstring) :
  skip_ws (integer_to_string z ++ rest) = integer_to_string z ++ rest.
Proof.
  destruct (integer_head z rest) as [c [r [E H]]]. rewrite E. cbn [skip_ws].
  assert (W : isJSONWhiteSpace c = false).
  { unfold isJSONWhiteSpace. rewrite !orb_false_iff, !N.eqb_neq.
    destruct H as [-> | D]; [repeat split; discriminate|].
    unfold isDigit in D. apply andb_true_iff in D as [D1 D2].
    apply N.leb_le in D1, D2. lia. }
  now rewrite W.
Qed.

(** A member followed by a comma, and the last member before the brace. *)
Lemma parse_members_more (fuel : nat) (k X W : jsstring) (v : value) :
  parse_value fuel (skip_ws X) = Ok (v, 0x2C%N :: W) ->
  parse_members (S fuel) (quote k ++ 0x3A%N :: X)
  = match parse_members fuel (skip_ws W) with
    | Ok (ms, r) => Ok ((k, v) :: ms, r)
    | SyntaxError => SyntaxError
    | OutOfFuel => OutOfFuel
    end.
Proof.
  intro V. rewrite quote_cons. cbn [parse_members N.eqb Pos.eqb negb].
  rewrite parse_chars_quote_units. cbn [skip_ws isJSONWhiteSpace N.eqb Pos.eqb orb negb].
  rewrite V. reflexivity.
Qed.

Lemma parse_members_last (fuel : nat) (k X W : jsstring) (v : value) :
  parse_value fuel (skip_ws X) = Ok (v, 0x7D%N :: W) ->
  parse_members (S fuel) (quote k ++ 0x3A%N :: X) = Ok ([(k, v)], W).
Proof.
  intro V. rewrite quote_cons. cbn [parse_members N.eqb Pos.eqb negb].
  rewrite parse_chars_quote_units. cbn [skip_ws isJSONWhiteSpace N.eqb Pos.eqb orb negb].
  rewrite V. reflexivity.
Qed.

Lemma parse_value_object (fuel : nat) (k Y r : jsstring)
      (ms : list (jsstring * value)) :
  parse_members fuel (quote k ++ Y) = Ok (ms, r) ->
  parse_value (S fuel) (0x7B%N :: quote k ++ Y) = Ok (Object ms, r).
Proof.
  intro M. rewrite quote_cons in *. cbn [parse_value N.eqb Pos.eqb].
  cbn [skip_ws isJSONWhiteSpace N.eqb Pos.eqb orb].
  rewrite M. reflexivity.
Qed.

Lemma stringify_memory_text (m : Memory) (rest : jsstring) :
  stringify_memory m ++ rest
  = 0x7B%N :: quote (lit "id") ++ 0x3A%N :: integer_to_string (id m) ++ 0x2C%N
    :: quote (lit "text") ++ 0x3A%N :: quote (text m) ++ 0x2C%N
    :: quote (lit "timestamp") ++ 0x3A%N :: quote (timestamp m) ++ 0x7D%N :: rest.
Proof.
  unfold stringify_memory.
  change (lit "{") with [0x7B%N]. change (lit ":") with [0x3A%N].
  change (lit ",") with [0x2C%N]. change (lit "}") with [0x7D%N].
  repeat rewrite <- app_assoc. reflexivity.
Qed.

(** One record reads back as the object that was written. *)
Lemma parse_value_memory (fuel : nat) (m : Memory) (rest : jsstring) :
  (5 <= fuel)%nat ->
  parse_value fuel (stringify_memory m ++ rest) = Ok (value_of_memory m, rest).
Proof.
  intro F.
  destruct fuel as [|[|[|[|[|f]]]]]; try lia.
  rewrite stringify_memory_text. apply parse_value_object.
  erewrite parse_members_more
    by (rewrite skip_ws_integer; apply parse_value_integer).
  rewrite skip_ws_quote.
  erewrite parse_members_more
    by (rewrite skip_ws_quote; apply parse_value_string).
  rewrite skip_ws_quote.
  erewrite parse_members_last
    by (rewrite skip_ws_quote; apply parse_value_string).
  reflexivity.
Qed.

Lemma stringify_memory_head (m : Memory) (rest : jsstring) :
  exists r, stringify_memory m ++ rest = 0x7B%N :: 0x22%N :: r.
Proof.
  rewrite stringify_memory_text, quote_cons. eexists. reflexivity.
Qed.

Lemma stringify_elements_cons (m : Memory) (ms : list Memory) (rest : jsstring) :
  stringify_elements (m :: ms) ++ rest
  = stringify_memory m
    ++ match ms with
       | [] => rest
       | _ :: _ => 0x2C%N :: stringify_elements ms ++ rest
       end.
Proof.
  destruct ms as [|m' ms]; cbn [stringify_elements]; [reflexivity|].
  change (lit ",") with [0x2C%N]. now rewrite <- !app_assoc.
Qed.

Lemma parse_elements_memories (ms : list Memory) :
  forall (m : Memory) (fuel : nat) (rest : jsstring),
    (List.length ms + 6 <= fuel)%nat ->
    parse_elements fuel (stringify_elements (m :: ms) ++ 0x5D%N :: rest)
    = Ok (map value_of_memory (m :: ms), rest).
Proof.
  induction ms as [|m' ms IH]; intros m fuel rest F;
    (destruct fuel as [|fuel]; [cbn [List.length] in F; lia|]);
    rewrite stringify_elements_cons; cbn [parse_elements];
    rewrite parse_value_memory by (cbn [List.length] in F; lia).
  - reflexivity.
  - cbn [skip_ws isJSONWhiteSpace N.eqb Pos.eqb orb].
    assert (W : skip_ws (stringify_elements (m' :: ms) ++ 0x5D%N :: rest)
                = stringify_elements (m' :: ms) ++ 0x5D%N :: rest).
    { rewrite stringify_elements_cons.
      match goal with
      | |- context [stringify_memory m' ++ ?X] =>
        destruct (stringify_memory_head m' X) as [r E]
      end.
      rewrite E. reflexivity. }
    rewrite W, IH by (cbn [List.length] in F; lia). reflexivity.
Qed.

Lemma stringify_elements_length (ms : list Memory) :
  (List.length ms <= List.length (stringify_elements ms))%nat.
Proof.
  induction ms as [|m ms IH]; [apply le_n|].
  pose proof (stringify_elements_cons m ms []) as E. rewrite app_nil_r in E.
  destruct (stringify_memory_head m []) as [r R]. rewrite app_nil_r in R.
  apply (f_equal (@List.length N)) in R. cbn [List.length] in R.
  rewrite E. destruct ms as [|m' ms];
    repeat (rewrite length_app || cbn [List.length] in * ); lia.
Qed.

(** [JSON.parse(JSON.stringify(memories))] *)
Theorem parse_stringify_memories (ms : list Memory) :
  parse (stringify_memories ms) = Some (value_of_memories ms).
Proof.
  unfold parse, parse_text, fuel_for, stringify_memories, value_of_memories.
  change (lit "[") with [0x5B%N]. change (lit "]") with [0x5D%N].
  cbn [List.app skip_ws isJSONWhiteSpace N.eqb Pos.eqb orb].
  replace (2 * List.length (0x5B%N :: stringify_elements ms ++ [0x5D%N]) + 2)%nat
    with (S (2 * List.length (0x5B%N :: stringify_elements ms ++ [0x5D%N]) + 1))%nat
    by lia.
  cbn [parse_value N.eqb Pos.eqb].
  destruct ms as [|m ms].
  - reflexivity.
  - pose proof (stringify_elements_cons m ms [0x5D%N]) as C.
    match type of C with
    | _ = stringify_memory m ++ ?X =>
      destruct (stringify_memory_head m X) as [r E]
    end.
    rewrite E in C.
    assert (W : skip_ws (stringify_elements (m :: ms) ++ [0x5D%N])
                = 0x7B%N :: 0x22%N :: r) by (rewrite C; reflexivity).
    rewrite W. cbn [N.eqb Pos.eqb]. rewrite <- C.
    rewrite parse_elements_memories; [reflexivity|].
    pose proof (stringify_elements_length (m :: ms)) as L.
    cbn [List.length] in *. rewrite length_app. cbn [List.length]. lia.
Qed.
End JSONFacts.

Lemma memory_of_value_memory (m : Memory) : memory_of_value (value_of_memory m) = Some m.
Proof.
  destruct m as [i t ts]. unfold memory_of_value, value_of_memory. cbn [id text timestamp].
  change (forallb (fun kv : jsstring * JSON.value => memory_key (fst kv))
                  [(lit "id", JSON.Number i 0); (lit "text", JSON.Str t);
                   (lit "timestamp", JSON.Str ts)])
    with (memory_key (lit "id") && (memory_key (lit "text")
                                    && (memory_key (lit "timestamp") && true))).
  replace (memory_key (lit "id")) with true by (vm_compute; reflexivity).
  replace (memory_key (lit "text")) with true by (vm_compute; reflexivity).
  replace (memory_key (lit "timestamp")) with true by (vm_compute; reflexivity).
  cbn [andb JSON.get].
  replace (str_eqb (lit "id") (lit "timestamp")) with false by (vm_compute; reflexivity).
  replace (str_eqb (lit "id") (lit "text")) with false by (vm_compute; reflexivity).
  replace (str_eqb (lit "id") (lit "id")) with true by (vm_compute; reflexivity).
  replace (str_eqb (lit "text") (lit "timestamp")) with false by (vm_compute; reflexivity).
  replace (str_eqb (lit "text") (lit "text")) with true by (vm_compute; reflexivity).
  replace (str_eqb (lit "timestamp") (lit "timestamp")) with true
    by (vm_compute; reflexivity).
  unfold JSON.integer_of_number. cbn [Z.leb Z.compare Z.pow Z.pow_pos].
  now rewrite Z.mul_1_r.
Qed.

Lemma memories_of_value_memories (ms : list Memory) :
  memories_of_value (value_of_memories ms) = Some ms.
Proof.
  unfold memories_of_value, value_of_memories.
  induction ms as [|m ms IH]; cbn [map memories_of_values]; [reflexivity|].
  now rewrite memory_of_value_memory, IH.
Qed.

(** Saving and loading again gives back the collection that was saved. *)
Lemma load_what_was_saved (ms : list Memory) :
  loadMemoriesEffect (ReadValue (Some (stringify_memories ms))) = Calls [setMemories ms].
Proof.
  unfold loadMemoriesEffect.
  replace (truthy (stringify_memories ms)) with true by reflexivity.
  now rewrite JSONFacts.parse_stringify_memories, memories_of_value_memories.
Qed.

Lemma memories_fold (cs : list Call) (st : AppState) :
  existsb is_setMemories cs = false ->
  memories (fold_left reduce cs st) = memories st.
Proof.
  revert st. induction cs as [|c cs IH]; intros st H; simpl in *; [reflexivity|].
  apply orb_false_iff in H as [Hc Hcs]. rewrite (IH _ Hcs).
  destruct c; try discriminate; reflexivity.
Qed.

Lemma recognitionEffect_keeps (r : option Recognition) (st : AppState) :
  existsb is_setMemories (recognitionEffect r st) = false.
Proof. destruct r; simpl; [now destruct (isListening st) | reflexivity]. Qed.

Lemma store_last (cs : list Call) (item : option jsstring) (v : jsstring) :
  fold_left store (cs ++ [localStorage_setItem storage_key v]) item = Some v.
Proof. rewrite fold_left_app. reflexivity. Qed.

(** After a handler that called [setMemories], a write that is accepted leaves
    in the store the text of the collection now in memory. *)
Lemma step_saves (e : Event) (w : World) :
  existsb is_setMemories (handle e w) = true ->
  localStorage (fst (step Stored e w))
  = Some (stringify_memories (memories (app (fst (step Stored e w))))).
Proof.
  intro H. unfold step, effects. rewrite H. cbn [fst perform localStorage app].
  cbn [saveMemoriesEffect]. rewrite !app_assoc, store_last. f_equal. f_equal.
  rewrite !fold_left_app. cbn [fold_left reduce memories].
  symmetry. apply memories_fold.
  destruct (Bool.eqb _ _); [reflexivity | apply recognitionEffect_keeps].
Qed.




(** ** Startup *)

Lemma loadVoices_no_notice (vs : list Voice) :
  existsb is_alert (loadVoices vs) = false
  /\ existsb is_setMemories (loadVoices vs) = false.
Proof. unfold loadVoices. now destruct (0 <? List.length vs)%nat. Qed.

Lemma recognitionEffect_no_notice (r : option Recognition) (st : AppState) :
  existsb is_alert (recognitionEffect r st) = false.
Proof. destruct r; simpl; [now destruct (isListening st) | reflexivity]. Qed.

Lemma saveMemoriesEffect_no_notice (o : StorageWrite) (st : AppState) :
  existsb is_alert (saveMemoriesEffect o st) = false
  /\ existsb is_setMemories (saveMemoriesEffect o st) = false.
Proof. now destruct o. Qed.

(** A load that seeds nothing lets the component start with no memory and no
    notice; what the startup did is the voices effect, the recognition effect,
    the load and one save. *)
Lemma mount_unseeded (p : Platform) (read : StorageRead) (o1 o2 : StorageWrite)
      (availableVoices : list Voice) (load : list Call) :
  speechSynthesis p = Some availableVoices ->
  loadMemoriesEffect read = Calls load ->
  existsb is_setMemories load = false ->
  existsb is_alert load = false ->
  exists w,
    mount p read o1 o2
    = Running w (loadVoices availableVoices
                 ++ recognitionEffect (useMemo_recognition p) initialState
                 ++ load ++ saveMemoriesEffect o1 initialState)
    /\ memories (app w) = []
    /\ existsb is_alert (loadVoices availableVoices
                         ++ recognitionEffect (useMemo_recognition p) initialState
                         ++ load ++ saveMemoriesEffect o1 initialState) = false.
Proof.
  intros S L M A. unfold mount. rewrite S, L, M.
  eexists. split; [rewrite app_nil_r; reflexivity|].
  destruct (loadVoices_no_notice availableVoices) as [V1 V2].
  destruct (saveMemoriesEffect_no_notice o1 initialState) as [S1 S2].
  split.
  - cbn [perform app fold_left]. rewrite memories_fold; [reflexivity|].
    now rewrite !existsb_app, V2, recognitionEffect_keeps, M, S2.
  - now rewrite !existsb_app, V1, recognitionEffect_no_notice, A, S1.
Qed.

(** X20: where speech synthesis exists, a store that gives nothing to parse
    lets the component start empty.  An absent item (or an empty one, which
    the component does not try to read) seeds nothing and logs nothing; a
    store that cannot be read, or an item that [JSON.parse] rejects, seeds
    nothing and the startup logs the failure with [console.error].  In each
    case the component runs with an empty collection, the startup consists of
    the voices effect, the recognition effect, the load and one save, and no
    notice is shown. *)
Theorem unparseable_store_starts_empty (p : Platform) (read : StorageRead)
        (o1 o2 : StorageWrite) (availableVoices : list Voice) :
  speechSynthesis p = Some availableVoices ->
  (read = ReadValue None \/ read = ReadValue (Some []) ->
   loadMemoriesEffect read = Calls []
   /\ exists w,
       mount p read o1 o2
       = Running w (loadVoices availableVoices
                    ++ recognitionEffect (useMemo_recognition p) initialState
                    ++ [] ++ saveMemoriesEffect o1 initialState)
       /\ memories (app w) = []
       /\ existsb is_alert
                  (loadVoices availableVoices
                   ++ recognitionEffect (useMemo_recognition p) initialState
                   ++ [] ++ saveMemoriesEffect o1 initialState) = false)
  /\ (read = ReadThrows
      \/ (exists s, read = ReadValue (Some s) /\ s <> [] /\ JSON.parse s = None) ->
      loadMemoriesEffect read = Calls load_failure
      /\ exists w,
          mount p read o1 o2
          = Running w (loadVoices availableVoices
                       ++ recognitionEffect (useMemo_recognition p) initialState
                       ++ load_failure ++ saveMemoriesEffect o1 initialState)
          /\ memories (app w) = []
          /\ existsb is_alert
                     (loadVoices availableVoices
                      ++ recognitionEffect (useMemo_recognition p) initialState
                      ++ load_failure ++ saveMemoriesEffect o1 initialState) = false).
Proof.
  intro S. split.
  - intro H.
    assert (L : loadMemoriesEffect read = Calls []) by (destruct H as [-> | ->]; reflexivity).
    split; [exact L|]. now apply mount_unseeded.
  - intro H.
    assert (L : loadMemoriesEffect read = Calls load_failure).
    { destruct H as [-> | [s [-> [N P]]]]; [reflexivity|].
      unfold loadMemoriesEffect. destruct s as [|u s]; [contradiction|].
      cbn [truthy]. now rewrite P. }
    split; [exact L|]. now apply mount_unseeded.
Qed.

Lemma unparseable_store_starts_empty_witness :
  speechSynthesis bare_platform = Some []
  /\ corrupt_item <> []
  /\ JSON.parse corrupt_item = None
  /\ loadMemoriesEffect (ReadValue (Some corrupt_item)) = Calls load_failure
  /\ exists w,
      mount bare_platform (ReadValue (Some corrupt_item)) Stored Stored
      = Running w (loadVoices []
                   ++ recognitionEffect (useMemo_recognition bare_platform) initialState
                   ++ load_failure ++ saveMemoriesEffect Stored initialState)
      /\ memories (app w) = []
      /\ existsb is_alert
                 (loadVoices []
                  ++ recognitionEffect (useMemo_recognition bare_platform) initialState
                  ++ load_failure ++ saveMemoriesEffect Stored initialState) = false.
Proof.
  assert (P : JSON.parse corrupt_item = None) by (vm_compute; reflexivity).
  assert (N : corrupt_item <> []) by (vm_compute; discriminate).
  destruct (@unparseable_store_starts_empty bare_platform (ReadValue (Some corrupt_item))
              Stored Stored [] eq_refl) as [_ B].
  split; [reflexivity|]. split; [exact N|]. split; [exact P|].
  apply B. right. exists corrupt_item. auto.
Defined.

(** C6, where the code falls short of it: a stored item that is well-formed
    JSON but not an array of records is not treated as corrupt.  For the items
    [null] and [[1]] the load effect logs nothing and hands the parsed value to
    [setMemories] as it is, the typed collection is left, and the next render
    throws (on [memories.filter], on [memory.text.toLowerCase]) instead of
    showing an empty list. *)
Theorem stored_null_is_fatal :
  (JSON.parse (lit "null") = Some JSON.Null
   /\ loadMemoriesEffect (ReadValue (Some (lit "null"))) = Untyped JSON.Null
   /\ mount full_platform (ReadValue (Some (lit "null"))) Stored Stored
      = LeftTypedState JSON.Null
   /\ forall toLowerCase term,
       filteredMemories_of_value toLowerCase term JSON.Null = None)
  /\ (JSON.parse (lit "[1]") = Some (JSON.Array [JSON.Number 1 0])
      /\ loadMemoriesEffect (ReadValue (Some (lit "[1]")))
         = Untyped (JSON.Array [JSON.Number 1 0])
      /\ mount full_platform (ReadValue (Some (lit "[1]"))) Stored Stored
         = LeftTypedState (JSON.Array [JSON.Number 1 0])
      /\ forall toLowerCase term,
          filteredMemories_of_value toLowerCase term (JSON.Array [JSON.Number 1 0])
          = None).
Proof.
  split; (split; [vm_compute; reflexivity|]);
    (split; [vm_compute; reflexivity|]);
    (split; [vm_compute; reflexivity|]); reflexivity.
Qed.


(** * Further properties of the component *)

(** ** What a step does to each part of the world *)

Lemma fold_without (A : Type) (f : A -> Call -> A) (sel : Call -> bool)
      (cs : list Call) :
  (forall a c, sel c = false -> f a c = a) ->
  existsb sel cs = false -> forall a, fold_left f cs a = a.
Proof.
  intro Hf. induction cs as [|c cs IH]; intros H a; simpl in *; [reflexivity|].
  apply orb_false_iff in H as [Hc Hcs]. rewrite (Hf a c Hc). now apply IH.
Qed.

Lemma store_fold (cs : list Call) (item : option jsstring) :
  existsb is_setItem cs = false -> fold_left store cs item = item.
Proof.
  intro H. apply (fold_without store is_setItem); [|exact H].
  intros a c Hc. destruct c; try discriminate; reflexivity.
Qed.

Lemma voices_fold (cs : list Call) (st : AppState) :
  existsb is_setVoices cs = false -> voices (fold_left reduce cs st) = voices st.
Proof.
  revert st. induction cs as [|c cs IH]; intros st H; simpl in *; [reflexivity|].
  apply orb_false_iff in H as [Hc Hcs]. rewrite (IH _ Hcs).
  destruct c; try discriminate; reflexivity.
Qed.

Lemma audioLevel_fold (cs : list Call) (st : AppState) :
  existsb is_setAudioLevel cs = false ->
  audioLevel (fold_left reduce cs st) = audioLevel st.
Proof.
  revert st. induction cs as [|c cs IH]; intros st H; simpl in *; [reflexivity|].
  apply orb_false_iff in H as [Hc Hcs]. rewrite (IH _ Hcs).
  destruct c; try discriminate; reflexivity.
Qed.

Lemma recognitionEffect_calls (r : option Recognition) (st : AppState) :
  recognitionEffect r st = [] \/ recognitionEffect r st = [setAudioLevel 0].
Proof. destruct r; simpl; [destruct (isListening st)|]; auto. Qed.

Lemma handle_no_setItem (e : Event) (w : World) :
  existsb is_setItem (handle e w) = false.
Proof.
  destruct e; cbn [handle]; try reflexivity.
  - unfold handleAddMemory. now destruct (str_eqb _ _).
  - unfold handleSpeak. destruct (synthesis w); [|reflexivity]. now destruct (find _ _).
  - unfold handleListen. destruct (recognition w); [|reflexivity].
    now destruct (isListening (app w)).
  - now destruct (recognition w).
  - now destruct (recognition w).
  - now destruct (recognition w).
  - destruct (synthesis w); [|reflexivity].
    unfold loadVoices. now destruct (0 <? List.length availableVoices)%nat.
  - destruct (recognition w); [|reflexivity]. now destruct (isListening (app w)).
Qed.

(** Only a submission and a delete call [setMemories]. *)
Lemma handle_setMemories (e : Event) (w : World) :
  (forall now localeString, e <> Submit now localeString) ->
  (forall idToDelete, e <> ClickDelete idToDelete) ->
  existsb is_setMemories (handle e w) = false.
Proof.
  intros S D. destruct e; cbn [handle]; try reflexivity.
  - exfalso. now apply (S now localeString).
  - exfalso. now apply (D idToDelete).
  - unfold handleSpeak. destruct (synthesis w); [|reflexivity]. now destruct (find _ _).
  - unfold handleListen. destruct (recognition w); [|reflexivity].
    now destruct (isListening (app w)).
  - now destruct (recognition w).
  - now destruct (recognition w).
  - now destruct (recognition w).
  - destruct (synthesis w); [|reflexivity].
    unfold loadVoices. now destruct (0 <? List.length availableVoices)%nat.
  - destruct (recognition w); [|reflexivity]. now destruct (isListening (app w)).
Qed.

Lemma effects_keep_memories (o : StorageWrite) (w : World) (cs : list Call) :
  existsb is_setMemories (effects o w cs) = false.
Proof.
  unfold effects. rewrite existsb_app. apply orb_false_iff. split.
  - destruct (Bool.eqb _ _); [reflexivity | apply recognitionEffect_keeps].
  - destruct (existsb is_setMemories cs); [|reflexivity]. now destruct o.
Qed.

Lemma step_memories (o : StorageWrite) (e : Event) (w : World) :
  memories (app (fst (step o e w)))
  = memories (fold_left reduce (handle e w) (app w)).
Proof.
  unfold step. cbn [fst perform app]. rewrite fold_left_app.
  apply memories_fold, effects_keep_memories.
Qed.

(** The store after a step: rewritten with the text of the new collection
    when the handler called [setMemories] and the write is accepted, left as
    it was otherwise. *)
Lemma step_localStorage (o : StorageWrite) (e : Event) (w : World) :
  localStorage (fst (step o e w))
  = if existsb is_setMemories (handle e w)
    then match o with
         | Stored => Some (stringify_memories (memories (app (fst (step o e w)))))
         | WriteThrows => localStorage w
         end
    else localStorage w.
Proof.
  destruct (existsb is_setMemories (handle e w)) eqn:M.
  - destruct o; [now apply step_saves|].
    unfold step, effects. rewrite M. cbn [fst perform localStorage].
    apply store_fold. rewrite !existsb_app, handle_no_setItem. cbn [orb].
    apply orb_false_iff. split; [|reflexivity].
    destruct (Bool.eqb _ _); [reflexivity|].
    destruct (recognitionEffect_calls (recognition w)
                (fold_left reduce (handle e w) (app w))) as [-> | ->]; reflexivity.
  - unfold step, effects. rewrite M. cbn [fst perform localStorage].
    apply store_fold. rewrite !existsb_app, handle_no_setItem. cbn [orb].
    apply orb_false_iff. split; [|reflexivity].
    destruct (Bool.eqb _ _); [reflexivity|].
    destruct (recognitionEffect_calls (recognition w)
                (fold_left reduce (handle e w) (app w))) as [-> | ->]; reflexivity.
Qed.

(** X1: apart from a submission and a click on a delete button, no event
    changes the memory collection or the stored text: typing, searching,
    choosing a language, playback, the microphone, recognition events, voice
    changes and interval ticks leave both as they were. *)
Theorem only_add_and_delete_touch_the_collection (o : StorageWrite) (e : Event)
        (w : World) :
  (forall now localeString, e <> Submit now localeString) ->
  (forall idToDelete, e <> ClickDelete idToDelete) ->
  memories (app (fst (step o e w))) = memories (app w)
  /\ localStorage (fst (step o e w)) = localStorage w.
Proof.
  intros S D. pose proof (handle_setMemories w S D) as M. split.
  - rewrite step_memories. now apply memories_fold.
  - rewrite step_localStorage, M. reflexivity.
Qed.

Lemma only_add_and_delete_touch_the_collection_witness :
  memories (app (fst (step WriteThrows RecognitionError world_listening)))
  = memories (app world_listening)
  /\ localStorage (fst (step WriteThrows RecognitionError world_listening))
     = localStorage world_listening.
Proof.
  apply only_add_and_delete_touch_the_collection; intros; discriminate.
Defined.

(** ** Notices *)



(** ** The store across a session *)

Lemma mount_store (p : Platform) (read : StorageRead) (o2 : StorageWrite)
      (w0 : World) (log : list Call) :
  mount p read Stored o2 = Running w0 log ->
  (exists ms, localStorage w0 = Some (stringify_memories ms))
  /\ (o2 = Stored ->
      localStorage w0 = Some (stringify_memories (memories (app w0)))).
Proof.
  unfold mount. destruct (speechSynthesis p) as [vs|]; [|discriminate].
  destruct (loadMemoriesEffect read) as [load|] eqn:L; [|discriminate].
  intro H. injection H as <- _. cbn [perform localStorage app].
  cbn [saveMemoriesEffect]. rewrite !app_assoc, store_last.
  destruct (existsb is_setMemories load) eqn:M.
  - destruct o2; cbn [saveMemoriesEffect fold_left store reduce].
    + replace (str_eqb storage_key storage_key) with true by reflexivity.
      split; [eexists; reflexivity | reflexivity].
    + split; [now exists [] | discriminate].
  - cbn [fold_left]. split; [now exists []|]. intros _. f_equal. f_equal.
    symmetry. rewrite memories_fold; [reflexivity|].
    destruct (loadVoices_no_notice vs) as [_ V].
    now rewrite !existsb_app, V, recognitionEffect_keeps, M.
Qed.

Lemma step_keeps_mirror (e : Event) (w : World) :
  localStorage w = Some (stringify_memories (memories (app w))) ->
  localStorage (fst (step Stored e w))
  = Some (stringify_memories (memories (app (fst (step Stored e w))))).
Proof.
  intro I. rewrite step_localStorage.
  destruct (existsb is_setMemories (handle e w)) eqn:M; [reflexivity|].
  rewrite step_memories, memories_fold by exact M. exact I.
Qed.

Lemma run_keeps_mirror (es : list Event) (w : World) :
  localStorage w = Some (stringify_memories (memories (app w))) ->
  localStorage (run w (accepted es))
  = Some (stringify_memories (memories (app (run w (accepted es))))).
Proof.
  unfold run, accepted. revert w.
  induction es as [|e es IH]; intros w I; cbn [map fold_left fst snd]; [exact I|].
  apply IH, step_keeps_mirror, I.
Qed.

(** X3: once the component has started with a collection whose ids are safe
    integers, and as long as the store accepts every write, loading the store
    gives back at every moment the collection in memory, whatever the events
    were. *)
Theorem store_mirrors_collection (p : Platform) (read : StorageRead)
        (w0 : World) (log : list Call) (es : list Event) :
  mount p read Stored Stored = Running w0 log ->
  safe_ids (memories (app w0)) ->
  loadMemoriesEffect (ReadValue (localStorage (run w0 (accepted es))))
  = Calls [setMemories (memories (app (run w0 (accepted es))))].
Proof.
  intros M _. destruct (mount_store _ _ _ M) as [_ I].
  rewrite (run_keeps_mirror es w0 (I eq_refl)). apply load_what_was_saved.
Qed.

Lemma store_mirrors_collection_witness :
  mount full_platform two_notes_saved Stored Stored
  = Running world_restarted (startup_log (mount full_platform two_notes_saved Stored Stored))
  /\ safe_ids (memories (app world_restarted))
  /\ loadMemoriesEffect
       (ReadValue
          (localStorage
             (run world_restarted
                  (accepted [ChangeDraft (lit "Buy eggs");
                             Submit 1730000009000 (lit "11/2/2026, 7:09:09 AM");
                             ChangeSearch (lit "milk");
                             ClickDelete 1730000000000;
                             ClickMic]))))
     = Calls [setMemories
                [{| id := 1730000009000; text := lit "Buy eggs";
                    timestamp := lit "11/2/2026, 7:09:09 AM" |};
                 created add_call]].
Proof.
  assert (M : mount full_platform two_notes_saved Stored Stored
              = Running world_restarted
                        (startup_log (mount full_platform two_notes_saved Stored Stored)))
    by (vm_compute; reflexivity).
  assert (B : safe_ids (memories (app world_restarted))).
  { replace (memories (app world_restarted)) with [created add_call; created add_milk]
      by (vm_compute; reflexivity).
    repeat constructor; unfold safe_integer; cbn [created id add_call add_milk clock]; lia. }
  split; [exact M|]. split; [exact B|].
  rewrite (store_mirrors_collection full_platform two_notes_saved
             [ChangeDraft (lit "Buy eggs");
              Submit 1730000009000 (lit "11/2/2026, 7:09:09 AM");
              ChangeSearch (lit "milk");
              ClickDelete 1730000000000;
              ClickMic] M B).
  vm_compute. reflexivity.
Defined.

(** X4: when the first write of the startup is accepted, the store holds at
    every later moment a text that the load effect accepts, the serialization
    of some collection, even if later writes are refused: a refused write
    leaves the store stale, never unreadable. *)
Theorem store_stays_loadable (p : Platform) (read : StorageRead) (o2 : StorageWrite)
        (w0 w : World) (log : list Call) :
  mount p read Stored o2 = Running w0 log ->
  Reachable w0 w ->
  exists ms,
    localStorage w = Some (stringify_memories ms)
    /\ loadMemoriesEffect (ReadValue (localStorage w)) = Calls [setMemories ms].
Proof.
  intros M H.
  assert (I : exists ms, localStorage w = Some (stringify_memories ms)).
  { induction H as [|w o e H IH].
    - now destruct (mount_store _ _ _ M) as [I _].
    - rewrite step_localStorage.
      destruct (existsb is_setMemories (handle e w)); [|exact IH].
      destruct o; [eexists; reflexivity | exact IH]. }
  destruct I as [ms I]. exists ms. split; [exact I|].
  rewrite I. apply load_what_was_saved.
Qed.

Lemma store_stays_loadable_witness :
  mount bare_platform (ReadValue (Some corrupt_item)) Stored Stored
  = Running fresh_world
            (load_failure ++ [localStorage_setItem storage_key (lit "[]")])
  /\ Reachable fresh_world
              (fst (step WriteThrows (Submit 1730000009000 (lit "11/2/2026, 7:09:09 AM"))
                         world_draft_typed))
  /\ exists ms,
      localStorage
        (fst (step WriteThrows (Submit 1730000009000 (lit "11/2/2026, 7:09:09 AM"))
                   world_draft_typed))
      = Some (stringify_memories ms)
      /\ loadMemoriesEffect
           (ReadValue
              (localStorage
                 (fst (step WriteThrows
                            (Submit 1730000009000 (lit "11/2/2026, 7:09:09 AM"))
                            world_draft_typed))))
         = Calls [setMemories ms].
Proof.
  assert (M : mount bare_platform (ReadValue (Some corrupt_item)) Stored Stored
              = Running fresh_world
                        (load_failure ++ [localStorage_setItem storage_key (lit "[]")]))
    by (vm_compute; reflexivity).
  assert (H : Reachable fresh_world
                        (fst (step WriteThrows
                                   (Submit 1730000009000 (lit "11/2/2026, 7:09:09 AM"))
                                   world_draft_typed)))
    by (unfold world_draft_typed; repeat apply reach_step; apply reach_mounted).
  split; [exact M|]. split; [exact H|].
  exact (store_stays_loadable _ _ _ M H).
Defined.





(** ** Listening with a recognition device *)

(** X7: with a recognition instance, every click on the microphone first
    writes the language selected at that moment into the instance; and a
    click while listening stops the device, turns the listening flag off and
    resets the audio level to zero. *)
Theorem mic_click_with_recognition (o : StorageWrite) (w : World) (d : Recognition) :
  recognition w = Some d ->
  recognition (fst (step o ClickMic w))
  = Some {| continuous := continuous d; interimResults := interimResults d;
            recognition_lang := language (app w) |}
  /\ (isListening (app w) = true ->
      isListening (app (fst (step o ClickMic w))) = false
      /\ audioLevel (app (fst (step o ClickMic w))) = 0%Q
      /\ snd (step o ClickMic w)
         = [recognition_set_lang (language (app w)); recognition_stop;
            setIsListening false; setAudioLevel 0]).
Proof.
  intro R. destruct w as [[ms nm term il lg vs al] r sy ls].
  cbn [recognition app isListening language] in *. subst r.
  split; [now destruct il|]. intros ->. repeat split.
Qed.

Lemma mic_click_with_recognition_witness :
  recognition world_listening
  = Some {| continuous := false; interimResults := false;
            recognition_lang := lit "ur-PK" |}
  /\ isListening (app world_listening) = true
  /\ recognition (fst (step Stored ClickMic
                            (fst (step Stored (ChangeLanguage (lit "en-US"))
                                       world_listening))))
     = Some {| continuous := false; interimResults := false;
               recognition_lang := lit "en-US" |}
  /\ isListening (app (fst (step Stored ClickMic world_listening))) = false
  /\ snd (step Stored ClickMic world_listening)
     = [recognition_set_lang (lit "ur-PK"); recognition_stop; setIsListening false;
        setAudioLevel 0].
Proof.
  assert (R : recognition world_listening
              = Some {| continuous := false; interimResults := false;
                        recognition_lang := lit "ur-PK" |}) by reflexivity.
  assert (R' : recognition (fst (step Stored (ChangeLanguage (lit "en-US"))
                                      world_listening))
               = Some {| continuous := false; interimResults := false;
                         recognition_lang := lit "ur-PK" |}) by reflexivity.
  assert (L : isListening (app world_listening) = true) by reflexivity.
  destruct (mic_click_with_recognition Stored _ R) as [_ H].
  destruct (H L) as [A [_ C]].
  destruct (mic_click_with_recognition Stored _ R') as [E _].
  split; [exact R|]. split; [exact L|]. split; [exact E|]. split; [exact A | exact C].
Defined.

(** X8: with a recognition instance, each of the three recognition events
    turns listening off without calling the device: a result also replaces
    the draft by the transcript, an error also logs one line, and neither an
    error nor the end touches the draft. *)
Theorem recognition_events_stop_listening (o : StorageWrite) (w : World)
        (d : Recognition) :
  recognition w = Some d ->
  (forall transcript,
      isListening (app (fst (step o (RecognitionResult transcript) w))) = false
      /\ newMemory (app (fst (step o (RecognitionResult transcript) w))) = transcript
      /\ existsb is_device_call (snd (step o (RecognitionResult transcript) w)) = false)
  /\ (isListening (app (fst (step o RecognitionError w))) = false
      /\ newMemory (app (fst (step o RecognitionError w))) = newMemory (app w)
      /\ In (console_error (lit "Speech recognition error"))
            (snd (step o RecognitionError w))
      /\ existsb is_device_call (snd (step o RecognitionError w)) = false)
  /\ (isListening (app (fst (step o RecognitionEnd w))) = false
      /\ newMemory (app (fst (step o RecognitionEnd w))) = newMemory (app w)
      /\ existsb is_device_call (snd (step o RecognitionEnd w)) = false).
Proof.
  intro R. destruct w as [[ms nm term il lg vs al] r sy ls].
  cbn [recognition app isListening newMemory] in *. subst r.
  split; [|split].
  - intro t. destruct il; repeat split.
  - destruct il; repeat split; now left.
  - destruct il; repeat split.
Qed.

Lemma recognition_events_stop_listening_witness :
  recognition world_listening
  = Some {| continuous := false; interimResults := false;
            recognition_lang := lit "ur-PK" |}
  /\ isListening (app world_listening) = true
  /\ isListening (app (fst (step Stored (RecognitionResult (lit "Buy Milk"))
                                 world_listening))) = false
  /\ newMemory (app (fst (step Stored (RecognitionResult (lit "Buy Milk"))
                               world_listening))) = lit "Buy Milk".
Proof.
  assert (R : recognition world_listening
              = Some {| continuous := false; interimResults := false;
                        recognition_lang := lit "ur-PK" |}) by reflexivity.
  split; [exact R|]. split; [reflexivity|].
  destruct (recognition_events_stop_listening Stored _ R) as [H _].
  destruct (H (lit "Buy Milk")) as [A [B _]]. split; [exact A | exact B].
Defined.

Lemma configure_single_utterance (cs : list Call) (r : option Recognition) :
  (exists l, r = Some {| continuous := false; interimResults := false;
                         recognition_lang := l |}) ->
  exists l, fold_left configure cs r
            = Some {| continuous := false; interimResults := false;
                      recognition_lang := l |}.
Proof.
  revert r. induction cs as [|c cs IH]; intros r [l ->]; cbn [fold_left].
  - now exists l.
  - apply IH. destruct c; cbn [configure continuous interimResults]; eexists; reflexivity.
Qed.

(** X9: where the recognition constructor exists, the component holds one
    instance for its whole life, and in every world it reaches that instance
    is still non-continuous and delivers no interim results; only its
    language is ever changed. *)
Theorem recognition_stays_single_utterance (p : Platform) (read : StorageRead)
        (o1 o2 : StorageWrite) (w0 w : World) (log : list Call) :
  SpeechRecognition p = true ->
  mount p read o1 o2 = Running w0 log ->
  Reachable w0 w ->
  exists l, recognition w
            = Some {| continuous := false; interimResults := false;
                      recognition_lang := l |}.
Proof.
  intros S M H. induction H as [|w o e H IH].
  - unfold mount, useMemo_recognition in M. rewrite S in M.
    destruct (speechSynthesis p); [|discriminate].
    destruct (loadMemoriesEffect read); [|discriminate].
    injection M as <- _. cbn [perform recognition].
    apply configure_single_utterance, configure_single_utterance. now exists [].
  - unfold step. cbn [fst perform recognition]. now apply configure_single_utterance.
Qed.

Lemma recognition_stays_single_utterance_witness :
  SpeechRecognition full_platform = true
  /\ mount full_platform (ReadValue None) Stored Stored
     = Running world_with_device
               [setVoices [voice_en_GB; voice_en_US]; setAudioLevel 0;
                localStorage_setItem storage_key (lit "[]")]
  /\ Reachable world_with_device world_listening
  /\ exists l, recognition world_listening
               = Some {| continuous := false; interimResults := false;
                         recognition_lang := l |}.
Proof.
  assert (M : mount full_platform (ReadValue None) Stored Stored
              = Running world_with_device
                        [setVoices [voice_en_GB; voice_en_US]; setAudioLevel 0;
                         localStorage_setItem storage_key (lit "[]")])
    by (vm_compute; reflexivity).
  assert (H : Reachable world_with_device world_listening)
    by (unfold world_listening; repeat apply reach_step; apply reach_mounted).
  split; [reflexivity|]. split; [exact M|]. split; [exact H|].
  exact (recognition_stays_single_utterance full_platform (ReadValue None) Stored Stored
           eq_refl M H).
Defined.

(** ** The audio level *)

Lemma level_zero_fold (cs : list Call) (st : AppState) :
  Forall sets_level_zero cs -> audioLevel st = 0%Q ->
  audioLevel (fold_left reduce cs st) = 0%Q.
Proof.
  intro F. revert st. induction F as [|c cs C _ IH]; intros st A; cbn [fold_left].
  - exact A.
  - apply IH. destruct c; cbn [reduce audioLevel]; try exact A. exact C.
Qed.

Lemma no_level_zero (cs : list Call) :
  existsb is_setAudioLevel cs = false -> Forall sets_level_zero cs.
Proof.
  induction cs as [|c cs IH]; intro H; constructor; simpl in H;
    apply orb_false_iff in H as [Hc Hcs].
  - destruct c; try discriminate; exact I.
  - now apply IH.
Qed.

Lemma effects_level_zero (o : StorageWrite) (w : World) (cs : list Call) :
  Forall sets_level_zero (effects o w cs).
Proof.
  unfold effects. apply Forall_app. split.
  - destruct (Bool.eqb _ _); [constructor|].
    destruct (recognitionEffect_calls (recognition w) (fold_left reduce cs (app w)))
      as [-> | ->]; repeat constructor.
  - destruct (existsb is_setMemories cs); [|constructor].
    destruct o; repeat constructor.
Qed.

(** While idle no handler sets a level other than zero. *)
Lemma handle_level_zero (e : Event) (w : World) :
  isListening (app w) = false -> Forall sets_level_zero (handle e w).
Proof.
  intro L. destruct e; cbn [handle]; try (repeat constructor).
  - apply no_level_zero. unfold handleAddMemory. now destruct (str_eqb _ _).
  - apply no_level_zero. unfold handleSpeak. destruct (synthesis w); [|reflexivity].
    now destruct (find _ _).
  - apply no_level_zero. unfold handleListen. destruct (recognition w); [|reflexivity].
    now destruct (isListening (app w)).
  - destruct (recognition w); repeat constructor.
  - destruct (recognition w); repeat constructor.
  - destruct (recognition w); repeat constructor.
  - apply no_level_zero. destruct (synthesis w); [|reflexivity].
    unfold loadVoices. now destruct (0 <? List.length availableVoices)%nat.
  - rewrite L. destruct (recognition w); constructor.
Qed.

Lemma step_idle_level (o : StorageWrite) (e : Event) (w : World) :
  (isListening (app w) = false -> audioLevel (app w) = 0%Q) ->
  isListening (app (fst (step o e w))) = false ->
  audioLevel (app (fst (step o e w))) = 0%Q.
Proof.
  intros I L. destruct (isListening (app w)) eqn:B.
  - (* listening before, idle after: the recognition effect ran *)
    unfold step in *. cbn [fst perform app] in *.
    rewrite fold_left_app in *.
    set (st := fold_left reduce (handle e w) (app w)) in *.
    rewrite isListening_fold in L by apply effects_quiet.
    destruct (recognition w) as [d|] eqn:R.
    + unfold effects. fold st. clearbody st. rewrite L, B, R. cbn [Bool.eqb recognitionEffect].
      rewrite L. cbn [List.app fold_left reduce].
      apply level_zero_fold; [|reflexivity].
      destruct (existsb is_setMemories (handle e w)); [|constructor].
      destruct o; repeat constructor.
    + unfold st in L. rewrite isListening_fold in L by now apply handle_quiet.
      congruence.
  - unfold step. cbn [fst perform app]. apply level_zero_fold; [|now apply I].
    apply Forall_app. split; [now apply handle_level_zero | apply effects_level_zero].
Qed.

(** X10: in every world the running component reaches, the audio level is
    zero whenever it is not listening: the level is only raised by the
    interval that runs while listening, and it is reset when listening
    ends. *)
Theorem idle_audio_level_is_zero (p : Platform) (read : StorageRead)
        (o1 o2 : StorageWrite) (w0 w : World) (log : list Call) :
  mount p read o1 o2 = Running w0 log ->
  Reachable w0 w ->
  isListening (app w) = false ->
  audioLevel (app w) = 0%Q.
Proof.
  intros M H. induction H as [|w o e H IH].
  - intros _. unfold mount in M.
    destruct (speechSynthesis p) as [vs|]; [|discriminate].
    destruct (loadMemoriesEffect read) as [load|] eqn:L; [|discriminate].
    injection M as <- _. cbn [perform app]. rewrite <- fold_left_app.
    apply level_zero_fold; [|reflexivity].
    repeat (apply Forall_app; split).
    + apply no_level_zero. unfold loadVoices. now destruct (0 <? List.length vs)%nat.
    + destruct (recognitionEffect_calls (useMemo_recognition p) initialState)
        as [-> | ->]; repeat constructor.
    + apply no_level_zero. unfold loadMemoriesEffect in L.
      destruct read as [|[s|]]; try (injection L as <-; reflexivity).
      destruct (truthy s); [|injection L as <-; reflexivity].
      destruct (JSON.parse s) as [v|]; [|injection L as <-; reflexivity].
      destruct (memories_of_value v); [injection L as <-; reflexivity | discriminate].
    + destruct o1; repeat constructor.
    + destruct (existsb is_setMemories load); [|constructor].
      destruct o2; repeat constructor.
  - now apply step_idle_level.
Qed.

Lemma idle_audio_level_is_zero_witness :
  mount full_platform (ReadValue None) Stored Stored
  = Running world_with_device
            [setVoices [voice_en_GB; voice_en_US]; setAudioLevel 0;
             localStorage_setItem storage_key (lit "[]")]
  /\ Reachable world_with_device
               (run world_with_device
                    [(Stored, ClickMic); (Stored, Tick (1 # 2)); (Stored, RecognitionEnd)])
  /\ audioLevel (app (run world_with_device [(Stored, ClickMic); (Stored, Tick (1 # 2))]))
     = (1 # 2) * 10 + 5
  /\ audioLevel
       (app (run world_with_device
                 [(Stored, ClickMic); (Stored, Tick (1 # 2)); (Stored, RecognitionEnd)]))
     = 0%Q.
Proof.
  assert (M : mount full_platform (ReadValue None) Stored Stored
              = Running world_with_device
                        [setVoices [voice_en_GB; voice_en_US]; setAudioLevel 0;
                         localStorage_setItem storage_key (lit "[]")])
    by (vm_compute; reflexivity).
  assert (H : Reachable world_with_device
                (run world_with_device
                     [(Stored, ClickMic); (Stored, Tick (1 # 2)); (Stored, RecognitionEnd)]))
    by (unfold run; cbn [fold_left fst snd]; repeat apply reach_step; apply reach_mounted).
  split; [exact M|]. split; [exact H|]. split; [reflexivity|].
  exact (idle_audio_level_is_zero _ _ _ _ M H eq_refl).
Defined.

(** ** Voices *)

Lemma effects_keep_voices (o : StorageWrite) (w : World) (cs : list Call) :
  existsb is_setVoices (effects o w cs) = false.
Proof.
  unfold effects. rewrite existsb_app. apply orb_false_iff. split.
  - destruct (Bool.eqb _ _); [reflexivity|].
    destruct (recognitionEffect_calls (recognition w) (fold_left reduce cs (app w)))
      as [-> | ->]; reflexivity.
  - destruct (existsb is_setMemories cs); [|reflexivity]. now destruct o.
Qed.

(** X11: the voice list is replaced only by a voice-change notification that
    brings at least one voice: every other event leaves the list as it is,
    and so does a notification with an empty enumeration.  Hence a list of
    voices, once there, never becomes empty again, whatever happens. *)
Theorem voices_never_emptied (o : StorageWrite) (w : World) :
  (forall e,
      (forall availableVoices, e <> VoicesChanged availableVoices) ->
      voices (app (fst (step o e w))) = voices (app w))
  /\ (forall availableVoices,
         voices (app (fst (step o (VoicesChanged availableVoices) w)))
         = if synthesis w
           then match availableVoices with
                | [] => voices (app w)
                | _ :: _ => availableVoices
                end
           else voices (app w))
  /\ (forall e, voices (app w) <> [] -> voices (app (fst (step o e w))) <> []).
Proof.
  assert (V : forall e', voices (app (fst (step o e' w)))
                         = voices (fold_left reduce (handle e' w) (app w))).
  { intro e'. unfold step. cbn [fst perform app]. rewrite fold_left_app.
    apply voices_fold, effects_keep_voices. }
  assert (A : forall e,
             (forall availableVoices, e <> VoicesChanged availableVoices) ->
             voices (app (fst (step o e w))) = voices (app w)).
  { intros e N. rewrite V. destruct e; cbn [handle]; try reflexivity.
    - apply voices_fold. unfold handleAddMemory. now destruct (str_eqb _ _).
    - apply voices_fold. unfold handleSpeak.
      destruct (synthesis w); [|reflexivity]. now destruct (find _ _).
    - apply voices_fold. unfold handleListen.
      destruct (recognition w); [|reflexivity]. now destruct (isListening (app w)).
    - now destruct (recognition w).
    - now destruct (recognition w).
    - now destruct (recognition w).
    - exfalso. now apply (N availableVoices).
    - destruct (recognition w); [|reflexivity]. now destruct (isListening (app w)). }
  assert (B : forall availableVoices,
             voices (app (fst (step o (VoicesChanged availableVoices) w)))
             = if synthesis w
               then match availableVoices with
                    | [] => voices (app w)
                    | _ :: _ => availableVoices
                    end
               else voices (app w)).
  { intro vs. rewrite V. cbn [handle]. destruct (synthesis w); [|reflexivity].
    now destruct vs. }
  split; [exact A|]. split; [exact B|].
  intros e N. destruct e;
    try (rewrite A; [exact N | intros; discriminate]).
  rewrite B. destruct (synthesis w); [|exact N].
  destruct availableVoices; [exact N | discriminate].
Qed.

Lemma voices_never_emptied_witness :
  synthesis world_with_voices = true
  /\ voices (app world_with_voices) <> []
  /\ voices (app (fst (step Stored (VoicesChanged []) world_with_voices)))
     = voices (app world_with_voices)
  /\ voices (app (fst (step Stored (VoicesChanged []) world_with_voices))) <> [].
Proof.
  assert (N : voices (app world_with_voices) <> []) by discriminate.
  destruct (voices_never_emptied Stored world_with_voices) as [_ [A B]].
  split; [reflexivity|]. split; [exact N|].
  split; [exact (A []) | exact (B (VoicesChanged []) N)].
Defined.

(** ** Adding and deleting, composed *)

Lemma step_ClickDelete_app (o : StorageWrite) (i : Z) (w : World) :
  app (fst (step o (ClickDelete i) w))
  = reduce (app w)
           (setMemories (filter (fun memory => negb (id memory =? i)%Z)
                                (memories (app w)))).
Proof.
  unfold step, effects. cbn [handle]. unfold handleDeleteMemory.
  cbn [fst perform app]. rewrite fold_left_app.
  cbn [fold_left reduce isListening existsb is_setMemories orb app].
  rewrite Bool.eqb_reflx. cbn [List.app]. apply saveMemoriesEffect_keeps.
Qed.

Lemma step_ChangeSearch (o : StorageWrite) (value : jsstring) (w : World) :
  app (fst (step o (ChangeSearch value) w)) = reduce (app w) (setSearchTerm value).
Proof.
  unfold step, effects. cbn [handle fold_left reduce isListening existsb is_setMemories orb].
  rewrite Bool.eqb_reflx. reflexivity.
Qed.

Lemma filter_twice (A : Type) (f g : A -> bool) (l : list A) :
  filter f (filter g l) = filter (fun x => g x && f x) l.
Proof.
  induction l as [|x l IH]; cbn [filter]; [reflexivity|].
  destruct (g x); cbn [filter andb]; [destruct (f x)|]; now rewrite IH.
Qed.

(** X12: a submission with a filled draft stores the draft as typed (not
    trimmed) under the clock reading and the formatted time, in front of the
    collection, and empties the draft; submitting again without typing is
    therefore rejected with the notice and changes nothing. *)
Theorem add_clears_draft (o o' : StorageWrite) (now now' : Z)
        (localeString localeString' : jsstring) (w : World) :
  trim (newMemory (app w)) <> [] ->
  memories (app (fst (step o (Submit now localeString) w)))
  = {| id := now; text := newMemory (app w); timestamp := localeString |}
      :: memories (app w)
  /\ newMemory (app (fst (step o (Submit now localeString) w))) = []
  /\ step o' (Submit now' localeString') (fst (step o (Submit now localeString) w))
     = (fst (step o (Submit now localeString) w),
        [preventDefault; alert (lit "Please enter a memory!")]).
Proof.
  intro F. pose proof (step_Submit_filled o now localeString w F) as E.
  split; [now rewrite E|]. split; [now rewrite E|].
  assert (B : blank (newMemory (app (fst (step o (Submit now localeString) w)))))
    by (rewrite E; constructor).
  unfold step at 1, effects. cbn [handle].
  rewrite (handleAddMemory_blank now' localeString' _ B).
  cbn [fold_left reduce existsb is_setMemories orb].
  rewrite Bool.eqb_reflx. cbn [List.app].
  rewrite perform_inert by reflexivity. reflexivity.
Qed.

Lemma add_clears_draft_witness :
  trim (newMemory (app world_draft_typed)) <> []
  /\ memories (app (fst (step Stored (Submit 1730000009000 (lit "11/2/2026, 7:09:09 AM"))
                              world_draft_typed)))
     = [{| id := 1730000009000; text := lit "Buy eggs";
           timestamp := lit "11/2/2026, 7:09:09 AM" |}]
  /\ newMemory (app (fst (step Stored (Submit 1730000009000 (lit "11/2/2026, 7:09:09 AM"))
                               world_draft_typed))) = [].
Proof.
  assert (F : trim (newMemory (app world_draft_typed)) <> [])
    by (vm_compute; discriminate).
  destruct (add_clears_draft Stored Stored 1730000009000 1730000009001
              (lit "11/2/2026, 7:09:09 AM") (lit "11/2/2026, 7:09:09 AM")
              world_draft_typed F) as [A [B _]].
  split; [exact F|]. split; [exact A | exact B].
Defined.

(** X13: deleting a memory right after adding it gives back the collection of
    before the add, provided its id (the clock reading) was not already the
    id of another record. *)
Theorem add_then_delete (o o' : StorageWrite) (now : Z) (localeString : jsstring)
        (w : World) :
  trim (newMemory (app w)) <> [] ->
  ~ In now (map id (memories (app w))) ->
  deleted o' now (fst (step o (Submit now localeString) w)) = memories (app w).
Proof.
  intros F N. rewrite step_ClickDelete, (step_Submit_filled o now localeString w F).
  cbn [reduce memories filter id]. rewrite Z.eqb_refl. cbn [negb].
  now apply filter_other_ids.
Qed.

Lemma add_then_delete_witness :
  trim (newMemory (app (fst (step Stored (ChangeDraft (lit "Buy eggs")) world_two_notes))))
  <> []
  /\ ~ In 1730000009000%Z
        (map id (memories
                   (app (fst (step Stored (ChangeDraft (lit "Buy eggs"))
                                   world_two_notes)))))
  /\ deleted Stored 1730000009000
             (fst (step Stored (Submit 1730000009000 (lit "11/2/2026, 7:09:09 AM"))
                        (fst (step Stored (ChangeDraft (lit "Buy eggs"))
                                   world_two_notes))))
     = [created add_call; created add_milk].
Proof.
  assert (F : trim (newMemory
                      (app (fst (step Stored (ChangeDraft (lit "Buy eggs"))
                                      world_two_notes)))) <> [])
    by (vm_compute; discriminate).
  assert (N : ~ In 1730000009000%Z
                (map id (memories
                           (app (fst (step Stored (ChangeDraft (lit "Buy eggs"))
                                           world_two_notes))))))
    by (vm_compute; intuition discriminate).
  split; [exact F|]. split; [exact N|].
  rewrite (@add_then_delete Stored Stored 1730000009000 (lit "11/2/2026, 7:09:09 AM")
             _ F N).
  reflexivity.
Defined.

(** X14: deleting by an id leaves no record with that id, whatever the
    collection held; deleting by the same id again changes nothing more; and
    two deletes give the same collection in either order. *)
Theorem delete_idempotent_commutes (o o' : StorageWrite) (i j : Z) (w : World) :
  ~ In i (map id (deleted o i w))
  /\ deleted o' i (fst (step o (ClickDelete i) w)) = deleted o i w
  /\ deleted o' j (fst (step o (ClickDelete i) w))
     = deleted o' i (fst (step o (ClickDelete j) w)).
Proof.
  rewrite !step_ClickDelete, !step_ClickDelete_app. cbn [reduce memories].
  split; [|split].
  - intro H. apply in_map_iff in H as [m [E H]]. apply filter_In in H as [_ H].
    rewrite E, Z.eqb_refl in H. discriminate H.
  - rewrite filter_twice. apply filter_ext. intro m. now destruct (id m =? i)%Z.
  - rewrite !filter_twice. apply filter_ext. intro m. apply andb_comm.
Qed.

(** X15: deleting while a filter is active takes the record out of the
    displayed list and keeps the other displayed memories, in their order;
    the filter itself stays as typed. *)
Theorem delete_under_filter (toLowerCase : jsstring -> jsstring)
        (o : StorageWrite) (i : Z) (w : World) :
  searchTerm (app (fst (step o (ClickDelete i) w))) = searchTerm (app w)
  /\ filteredMemories toLowerCase (app (fst (step o (ClickDelete i) w)))
     = filter (fun memory => negb (id memory =? i)%Z)
              (filteredMemories toLowerCase (app w)).
Proof.
  rewrite step_ClickDelete_app. split; [reflexivity|].
  unfold filteredMemories. cbn [reduce memories searchTerm].
  rewrite !filter_twice. apply filter_ext. intro m. apply andb_comm.
Qed.

Lemma rev_sorted (l : list Z) :
  StronglySorted Z.le l -> StronglySorted Z.ge (rev l).
Proof.
  intro H. induction H as [|a l S IH F]; cbn [rev]; [constructor|].
  assert (G : forall k, StronglySorted Z.ge k -> Forall (fun x => (x >= a)%Z) k ->
                        StronglySorted Z.ge (k ++ [a])).
  { intros k K. induction K as [|b k K IHk Fb]; intro A; cbn [List.app].
    - repeat constructor.
    - inversion A as [|? ? Ab Ak]; subst. constructor; [now apply IHk|].
      apply Forall_app. split; [exact Fb | now constructor]. }
  apply G; [exact IH|].
  apply Forall_forall. intros x Hx. apply in_rev in Hx.
  rewrite Forall_forall in F. specialize (F x Hx). lia.
Qed.

(** X16: when the clock never runs backwards, the ids are in non-increasing
    order down the collection: if the ids already present, oldest first,
    followed by the clock readings of the adds form a non-decreasing
    sequence, the collection after the adds is ordered by id, newest
    first. *)
Theorem ids_newest_first (w : World) (l : list Add) :
  Forall (fun a => trim (draft a) <> []) l ->
  StronglySorted Z.le (rev (map id (memories (app w))) ++ map clock l) ->
  StronglySorted Z.ge (map id (memories (app (adds w l)))).
Proof.
  intros F S. rewrite (adds_memories w F), map_app, map_rev, map_map.
  cbn [created id].
  apply rev_sorted in S. rewrite rev_app_distr, rev_involutive in S. exact S.
Qed.

Lemma ids_newest_first_witness :
  Forall (fun a => trim (draft a) <> []) [add_eggs; add_call]
  /\ StronglySorted Z.le
       (rev (map id (memories (app (adds fresh_world [add_milk]))))
        ++ map clock [add_eggs; add_call])
  /\ StronglySorted Z.ge
       (map id (memories (app (adds (adds fresh_world [add_milk]) [add_eggs; add_call])))).
Proof.
  assert (F : Forall (fun a => trim (draft a) <> []) [add_eggs; add_call])
    by (repeat constructor; vm_compute; discriminate).
  assert (S : StronglySorted Z.le
                (rev (map id (memories (app (adds fresh_world [add_milk]))))
                 ++ map clock [add_eggs; add_call]))
    by (vm_compute; repeat constructor; discriminate).
  split; [exact F|]. split; [exact S|].
  exact (ids_newest_first (adds fresh_world [add_milk]) F S).
Defined.

(** ** Narrowing the filter *)

Section Narrowing.

Variable toLowerCase : jsstring -> jsstring.

Hypothesis toLowerCase_basic_latin :
  forall s, isBasicLatin s -> toLowerCase s = toLowerCase_basic s.

(** X17: typing more around a Basic Latin filter can only take memories out of
    the displayed list: whatever is displayed under a filter that contains
    [term] is displayed under [term] alone. *)
Theorem longer_filter_narrows (o : StorageWrite) (w : World)
        (before term after : jsstring) (m : Memory) :
  isBasicLatin before -> isBasicLatin term -> isBasicLatin after ->
  In (li m)
     (memory_list toLowerCase
                  (app (fst (step o (ChangeSearch (before ++ term ++ after)) w)))) ->
  In (li m) (memory_list toLowerCase (app (fst (step o (ChangeSearch term) w)))).
Proof.
  intros B T A H.
  apply memory_list_li, filteredMemories_In in H.
  apply memory_list_li, filteredMemories_In.
  rewrite step_ChangeSearch in *. cbn [reduce memories searchTerm] in *.
  destruct H as [I [pre [post E]]]. split; [exact I|].
  unfold occurs_ignoring_case, occurs_in.
  assert (L : isBasicLatin (before ++ term ++ after)).
  { unfold isBasicLatin in *. now rewrite !Forall_app. }
  rewrite (toLowerCase_basic_latin L) in E.
  rewrite (toLowerCase_basic_latin T).
  unfold toLowerCase_basic in *. rewrite !map_app in E.
  exists (pre ++ map lowerBasicLatin before), (map lowerBasicLatin after ++ post).
  rewrite E, <- !app_assoc. reflexivity.
Qed.

End Narrowing.

Lemma longer_filter_narrows_witness :
  (forall s, isBasicLatin s -> toLowerCase_basic s = toLowerCase_basic s)
  /\ isBasicLatin (lit "Buy ") /\ isBasicLatin (lit "MIL") /\ isBasicLatin (lit "k")
  /\ In (li (created add_milk))
        (memory_list toLowerCase_basic
                     (app (fst (step Stored (ChangeSearch (lit "Buy " ++ lit "MIL" ++ lit "k"))
                                     world_two_notes))))
  /\ In (li (created add_milk))
        (memory_list toLowerCase_basic
                     (app (fst (step Stored (ChangeSearch (lit "MIL")) world_two_notes)))).
Proof.
  assert (B : isBasicLatin (lit "Buy ")) by (apply isBasicLatin_lit; reflexivity).
  assert (T : isBasicLatin (lit "MIL")) by (apply isBasicLatin_lit; reflexivity).
  assert (A : isBasicLatin (lit "k")) by (apply isBasicLatin_lit; reflexivity).
  assert (H : In (li (created add_milk))
                 (memory_list toLowerCase_basic
                    (app (fst (step Stored
                                    (ChangeSearch (lit "Buy " ++ lit "MIL" ++ lit "k"))
                                    world_two_notes)))))
    by (vm_compute; auto).
  split; [exact toLowerCase_basic_on_basic_latin|].
  split; [exact B|]. split; [exact T|]. split; [exact A|]. split; [exact H|].
  exact (@longer_filter_narrows toLowerCase_basic toLowerCase_basic_on_basic_latin
           Stored world_two_notes _ _ _ _ B T A H).
Defined.

(** ** Dictation *)

Lemma step_RecognitionResult (o : StorageWrite) (transcript : jsstring) (w : World)
      (d : Recognition) :
  recognition w = Some d ->
  newMemory (app (fst (step o (RecognitionResult transcript) w))) = transcript
  /\ memories (app (fst (step o (RecognitionResult transcript) w))) = memories (app w).
Proof.
  intro R. destruct w as [[ms nm term il lg vs al] r sy ls].
  cbn [recognition] in R. subst r. destruct il; split; reflexivity.
Qed.

(** X18: dictating and then submitting stores the transcript: after a
    recognition result whose transcript trims to something, a submission puts
    a record with exactly that transcript as text in front of the collection
    and empties the draft. *)
Theorem dictate_then_add (o o' : StorageWrite) (transcript : jsstring) (now : Z)
        (localeString : jsstring) (w : World) (d : Recognition) :
  recognition w = Some d ->
  trim transcript <> [] ->
  memories (app (run w [(o, RecognitionResult transcript);
                        (o', Submit now localeString)]))
  = {| id := now; text := transcript; timestamp := localeString |} :: memories (app w)
  /\ newMemory (app (run w [(o, RecognitionResult transcript);
                            (o', Submit now localeString)])) = []
  /\ isListening (app (run w [(o, RecognitionResult transcript);
                              (o', Submit now localeString)])) = false.
Proof.
  intros R F. unfold run. cbn [fold_left fst snd].
  destruct (step_RecognitionResult o transcript w R) as [D M].
  assert (F' : trim (newMemory (app (fst (step o (RecognitionResult transcript) w)))) <> [])
    by now rewrite D.
  rewrite (step_Submit_filled o' now localeString _ F').
  cbn [reduce memories newMemory isListening]. rewrite D, M.
  split; [reflexivity|]. split; [reflexivity|].
  destruct w as [[ms nm term il lg vs al] r sy ls].
  cbn [recognition] in R. subst r. now destruct il.
Qed.

Lemma dictate_then_add_witness :
  recognition world_listening
  = Some {| continuous := false; interimResults := false;
            recognition_lang := lit "ur-PK" |}
  /\ trim (lit "Buy Milk") <> []
  /\ memories (app (run world_listening
                        [(Stored, RecognitionResult (lit "Buy Milk"));
                         (Stored, Submit 1730000000000 (lit "11/2/2026, 7:09:00 AM"))]))
     = [created add_milk].
Proof.
  assert (R : recognition world_listening
              = Some {| continuous := false; interimResults := false;
                        recognition_lang := lit "ur-PK" |}) by reflexivity.
  assert (F : trim (lit "Buy Milk") <> []) by (vm_compute; discriminate).
  split; [exact R|]. split; [exact F|].
  destruct (@dictate_then_add Stored Stored (lit "Buy Milk") 1730000000000
              (lit "11/2/2026, 7:09:00 AM") world_listening _ R F) as [E _].
  exact E.
Defined.

(** ** Speech synthesis at startup *)


